(** * Via generator of OpenFASOC's gdsfactory-gen: a shallow embedding

    Source: [openfasoc/generators/gdsfactory-gen/via_gen.py], the functions
    [__error_check_order_layers], [via_stack] and [via_array].

    Conventions of the embedding.
    - Python [int] is [Z]; dimensions (Python [float]) are exact rationals
      [Q]: rounding of binary floating point is not modelled.  Equalities
      between computed dimensions are therefore stated with [==] (Qeq)
      unless both sides come from the same computation.
    - Python [str] is [string]; names are taken to be ASCII.
    - Exceptions are an explicit error monad [result]; an exception is
      identified by its kind (raise site family), not by its message.
    - A [Component] is the flat list of the rectangles it holds, in the
      order in which they were added; a reference that is moved and later
      flattened is the translated copy of its parent.
    - The instance counts of [via_array] are integers read off a quotient
      of floats, where one rounding error can change the result; for them
      the sum and the quotient of line 126 are parameters of the model
      ([FloatOps], [via_array_with]).
    - The geometry library may reorder the rectangles of a component when
      it flattens it: what is said of a returned geometry as a whole is
      said up to the order of its rectangles ([Permutation]). *)

From Stdlib Require Import ZArith QArith Qround Qminmax Qabs.
From Stdlib Require Import String Ascii List Bool Lia Lqa DecimalString.
From Stdlib Require Import Permutation.
Import ListNotations.

Open Scope string_scope.
Open Scope Z_scope.

(** ** Exceptions *)

Inductive exn : Type :=
| InvalidLayer   (* ValueError "via_stack: specify between two routable layers" *)
| BadLevel       (* ValueError of int() on a character that is no digit *)
| MissingRule    (* failure of the rule source: absent layer, rule or key *)
| AreaTooSmall   (* ValueError "via_array size: one or more dims too small" *)
| ZeroDivision   (* ZeroDivisionError *)
| UnboundLevel   (* NameError: loop variable read after an empty loop *)
| EmptySequence. (* ValueError of max() on an empty list *)

Inductive result (A : Type) : Type :=
| Ok (a : A)
| Raise (e : exn).

Arguments Ok {A} a.
Arguments Raise {A} e.

Definition bind {A B : Type} (m : result A) (k : A -> result B) : result B :=
  match m with
  | Ok a => k a
  | Raise e => Raise e
  end.

Notation "x <- m ;; k" := (bind m (fun x => k))
  (at level 61, m at next level, right associativity).
Notation "' pat <- m ;; k" := (bind m (fun x => match x with pat => k end))
  (at level 61, pat pattern, m at next level, right associativity).

(** ** Strings as Python uses them here *)

Module PyStr.

(** [needle in hay] *)
Fixpoint contains (needle hay : string) : bool :=
  if String.prefix needle hay then true
  else match hay with
       | EmptyString => false
       | String _ rest => contains needle rest
       end.

(** [s[-1]]; [None] stands for the IndexError on the empty string. *)
Fixpoint last (s : string) : option ascii :=
  match s with
  | EmptyString => None
  | String c EmptyString => Some c
  | String _ rest => last rest
  end.

(** [int(c)] for a one-character string. *)
Definition int_of_char (c : ascii) : result Z :=
  let n := Z.of_nat (nat_of_ascii c) in
  if (48 <=? n) && (n <=? 57) then Ok (n - 48) else Raise BadLevel.

(** [str(n)] for an integer. *)
Definition str (n : Z) : string := NilZero.string_of_int (Z.to_int n).

(** [range(start, stop)] *)
Definition range (start stop : Z) : list Z :=
  map (fun i => start + Z.of_nat i) (seq 0 (Z.to_nat (stop - start))).

End PyStr.

(** ** The rule source *)

Definition Layer : Type := (Z * Z)%type.

(** A rule entry is a dictionary from rule names to values. *)
Definition grule : Type := list (string * Q).

Fixpoint grule_lookup (d : grule) (key : string) : option Q :=
  match d with
  | [] => None
  | (k, v) :: rest => if String.eqb k key then Some v else grule_lookup rest key
  end.

(** Modelled from the spec: the rule source [MappedPDK] (PDK/mappedpdk.py is
    not part of the sources).  It answers "is this a routable layer", "is
    this named layer available", maps a generic layer name to a concrete
    layer, and returns the rule entry of a layer or of a pair of layers; an
    absent layer or rule is a failure. *)
Record MappedPDK : Type := {
  is_routable_glayer : string -> bool;
  glayer_available : string -> bool;
  glayers : string -> option Layer;
  grules : string -> option string -> option grule
}.

Section RuleSource.

Variable pdk : MappedPDK.

Definition has_required_glayers (required : list string) : result unit :=
  if forallb (glayer_available pdk) required then Ok tt else Raise MissingRule.

Definition get_glayer (name : string) : result Layer :=
  match glayers pdk name with
  | Some l => Ok l
  | None => Raise MissingRule
  end.

Definition get_grule (glayer1 : string) (glayer2 : option string) : result grule :=
  match grules pdk glayer1 glayer2 with
  | Some d => Ok d
  | None => Raise MissingRule
  end.

(** [pdk.get_grule(a)[key]] and [pdk.get_grule(a, b)[key]] *)
Definition rule1 (a key : string) : result Q :=
  d <- get_grule a None ;;
  match grule_lookup d key with Some v => Ok v | None => Raise MissingRule end.

Definition rule2 (a b key : string) : result Q :=
  d <- get_grule a (Some b) ;;
  match grule_lookup d key with Some v => Ok v | None => Raise MissingRule end.

End RuleSource.

(** ** Geometry *)

(** An axis-aligned rectangle on a concrete layer, given by its centre and
    its size. *)
Record Rect : Type := mkRect {
  r_layer : Layer;
  r_cx : Q;
  r_cy : Q;
  r_w : Q;
  r_h : Q
}.

Definition Component : Type := list Rect.

(** [c << r]: add one rectangle to a component. *)
Definition add_ref (c : Component) (r : Rect) : Component := (c ++ [r])%list.

(** [rectangle(size=size, layer=layer, centered=True)] *)
Definition rectangle (size : Q * Q) (layer : Layer) : Rect :=
  mkRect layer 0 0 (fst size) (snd size).

Definition move_rect (dx dy : Q) (r : Rect) : Rect :=
  mkRect (r_layer r) (r_cx r + dx) (r_cy r + dy) (r_w r) (r_h r).

(** Flattening keeps the rectangles: a [Component] is already flat. *)
Definition flatten (c : Component) : Component := c.

(** A reference to a parent cell, placed at an origin; [movex] and [movey]
    shift the origin. *)
Record Ref (P : Type) : Type := mkRef {
  ref_parent : P;
  ref_x : Q;
  ref_y : Q
}.

Arguments mkRef {P} _ _ _.
Arguments ref_parent {P} _.
Arguments ref_x {P} _.
Arguments ref_y {P} _.

Definition new_ref {P : Type} (parent : P) : Ref P := mkRef parent 0 0.

Definition movex {P : Type} (dx : Q) (r : Ref P) : Ref P :=
  mkRef (ref_parent r) (ref_x r + dx) (ref_y r).

Definition movey {P : Type} (dy : Q) (r : Ref P) : Ref P :=
  mkRef (ref_parent r) (ref_x r) (ref_y r + dy).

(** A cell that holds references to flat components. *)
Definition RowCell : Type := list (Ref Component).

Definition flatten_row (row : RowCell) : Component :=
  flat_map (fun r => map (move_rect (ref_x r) (ref_y r)) (ref_parent r)) row.

(** A cell that holds references to rows, and rectangles of its own. *)
Record ArrayCell : Type := mkArrayCell {
  cell_rows : list (Ref RowCell);
  cell_rects : list Rect
}.

Definition flatten_array (a : ArrayCell) : Component :=
  (flat_map (fun r => map (move_rect (ref_x r) (ref_y r)) (flatten_row (ref_parent r)))
            (cell_rows a)
   ++ cell_rects a)%list.

Definition rect_xmin (r : Rect) : Q := Qmin (r_cx r - r_w r / 2) (r_cx r + r_w r / 2).
Definition rect_xmax (r : Rect) : Q := Qmax (r_cx r - r_w r / 2) (r_cx r + r_w r / 2).
Definition rect_ymin (r : Rect) : Q := Qmin (r_cy r - r_h r / 2) (r_cy r + r_h r / 2).
Definition rect_ymax (r : Rect) : Q := Qmax (r_cy r - r_h r / 2) (r_cy r + r_h r / 2).

(** Bounding extents of a component (0 for the empty one). *)
Definition extent (op : Q -> Q -> Q) (f : Rect -> Q) (c : Component) : Q :=
  match c with
  | [] => 0
  | r :: rest => fold_left (fun acc r' => op acc (f r')) rest (f r)
  end.

Definition xmin (c : Component) : Q := extent Qmin rect_xmin c.
Definition xmax (c : Component) : Q := extent Qmax rect_xmax c.
Definition ymin (c : Component) : Q := extent Qmin rect_ymin c.
Definition ymax (c : Component) : Q := extent Qmax rect_ymax c.

(** ** Layer-order resolver *)

(** [int(glayer[-1]) if "met" in glayer else 0] *)
Definition glayer_level (glayer : string) : result Z :=
  if PyStr.contains "met" glayer then
    match PyStr.last glayer with
    | Some c => PyStr.int_of_char c
    | None => Raise BadLevel
    end
  else Ok 0.

Definition __error_check_order_layers (pdk : MappedPDK) (glayer1 glayer2 : string)
  : result (Z * Z) :=
  if negb (forallb (is_routable_glayer pdk) [glayer1; glayer2]) then Raise InvalidLayer
  else
    level1 <- glayer_level glayer1 ;;
    level2 <- glayer_level glayer2 ;;
    if level1 >? level2 then Ok (level2, level1) else Ok (level1, level2).

(** ** Via-stack synthesizer *)

Section ViaStack.

Variable pdk : MappedPDK.

(** Lines 44-55: the contact and its metal-1 pad. *)
Definition lay_mcon (viastack : Component) : result Component :=
  _ <- has_required_glayers pdk ["mcon"; "met1"] ;;
  mcondim <- rule1 pdk "mcon" "width" ;;
  lmcon <- get_glayer pdk "mcon" ;;
  let viastack := add_ref viastack (rectangle (mcondim, mcondim) lmcon) in
  enc <- rule2 pdk "met1" "mcon" "min_enclosure" ;;
  minw <- rule1 pdk "met1" "min_width" ;;
  let metdim := Qmax (2 * enc + mcondim) minw in
  lmet <- get_glayer pdk "met1" ;;
  Ok (add_ref viastack (rectangle (metdim, metdim) lmet)).

(** Lines 64-78: one pass of the loop body. *)
Definition lay_level (viastack : Component) (level : Z) : result Component :=
  let gmetlayer := "met" ++ PyStr.str level in
  let gnextvia := "via" ++ PyStr.str level in
  _ <- has_required_glayers pdk [gmetlayer; gnextvia] ;;
  enc <- rule2 pdk gmetlayer gnextvia "min_enclosure" ;;
  vw <- rule1 pdk gnextvia "width" ;;
  minw <- rule1 pdk gmetlayer "min_width" ;;
  let metdim := Qmax (2 * enc + vw) minw in
  lmet <- get_glayer pdk gmetlayer ;;
  let viastack := add_ref viastack (rectangle (metdim, metdim) lmet) in
  viadim <- rule1 pdk gnextvia "width" ;;
  lvia <- get_glayer pdk gnextvia ;;
  Ok (add_ref viastack (rectangle (viadim, viadim) lvia)).

(** The [for level in range(level1, level2)] loop; the second component is
    the value the loop variable is left with ([None]: never bound). *)
Fixpoint lay_levels (levels : list Z) (viastack : Component) (level : option Z)
  : result (Component * option Z) :=
  match levels with
  | [] => Ok (viastack, level)
  | l :: rest =>
      viastack <- lay_level viastack l ;;
      lay_levels rest viastack (Some l)
  end.

(** Lines 62-89. *)
Definition lay_metals (viastack : Component) (level1 level2 : Z) : result Component :=
  if negb (level1 =? 0) && negb (level2 =? 0) then
    '(viastack, level) <- lay_levels (PyStr.range level1 level2) viastack None ;;
    let gfinalmet := "met" ++ PyStr.str level2 in
    level <- match level with Some l => Ok l | None => Raise UnboundLevel end ;;
    let gprevvia := "via" ++ PyStr.str level in
    enc <- rule2 pdk gfinalmet gprevvia "min_enclosure" ;;
    vw <- rule1 pdk gprevvia "width" ;;
    minw <- rule1 pdk gfinalmet "min_width" ;;
    let metdim := Qmax (2 * enc + vw) minw in
    lmet <- get_glayer pdk gfinalmet ;;
    Ok (flatten (add_ref viastack (rectangle (metdim, metdim) lmet)))
  else Ok (flatten viastack).

Definition via_stack (glayer1 glayer2 : string) : result Component :=
  '(level1, level2) <- __error_check_order_layers pdk glayer1 glayer2 ;;
  let viastack : Component := [] in
  if level1 =? level2 then Ok viastack
  else if level1 =? 0 then
    viastack <- lay_mcon viastack ;;
    let level1 := level1 + 1 in
    if level1 =? level2 then Ok (flatten viastack)
    else lay_metals viastack level1 level2
  else lay_metals viastack level1 level2.

End ViaStack.

(** ** Via-array packer *)

Definition Qltb (x y : Q) : bool := negb (Qle_bool y x).

(** [max(l)] of a non-empty list; the first maximal element is kept. *)
Definition py_max (l : list Q) : result Q :=
  match l with
  | [] => Raise EmptySequence
  | x :: rest => Ok (fold_left Qmax rest x)
  end.

(** [(-1) ** vianum * ceil(vianum / 2)] *)
Definition spacing_multiplier (vianum : Z) : Z :=
  (-1) ^ vianum * Qceiling (inject_Z vianum / 2).

Section ViaArray.

Variable pdk : MappedPDK.

(** Lines 113-116: one pass of the spacing loop. *)
Definition spacing_level (via_spacing : list Q) (level : Z) : result (list Q) :=
  let met_glayer := "met" ++ PyStr.str level in
  let via_glayer := "via" ++ PyStr.str level in
  smet <- rule1 pdk met_glayer "min_seperation" ;;
  let via_spacing := (via_spacing ++ [smet])%list in
  svia <- rule1 pdk via_glayer "min_seperation" ;;
  Ok (via_spacing ++ [svia])%list.

Fixpoint spacing_levels (levels : list Z) (via_spacing : list Q) : result (list Q) :=
  match levels with
  | [] => Ok via_spacing
  | l :: rest =>
      via_spacing <- spacing_level via_spacing l ;;
      spacing_levels rest via_spacing
  end.

(** Lines 110-118: the minimum space between via stacks. *)
Definition compute_via_spacing (level1 level2 : Z) : result Q :=
  via_spacing <- (if negb (level1 =? 0) then Ok []
                  else s <- rule1 pdk "mcon" "min_seperation" ;; Ok [s]) ;;
  let level1 := if negb (level1 =? 0) then level1 else level1 + 1 in
  via_spacing <- spacing_levels (PyStr.range level1 level2) via_spacing ;;
  stop <- rule1 pdk ("met" ++ PyStr.str level2) "min_seperation" ;;
  py_max (via_spacing ++ [stop])%list.

(** [max(viastack.xmax - viastack.xmin, viastack.ymax - viastack.ymin)] *)
Definition viadim_of (viastack : Component) : Q :=
  Qmax (xmax viastack - xmin viastack) (ymax viastack - ymin viastack).

(** [floor(dim / (viadim + via_spacing)) or 1] *)
Definition num_vias_of (viadim via_spacing dim : Q) : result Z :=
  let pitch := (viadim + via_spacing)%Q in
  if Qeq_bool pitch 0 then Raise ZeroDivision
  else let n := Qfloor (dim / pitch)%Q in Ok (if n =? 0 then 1 else n).

(** Lines 131-135 and 138-142: one pass of a placement loop, along the
    axis given by [move]. *)
Definition place {P : Type} (move : Q -> Ref P -> Ref P) (num : Z)
           (viaspacing_full : Q) (parent : P) (cell : list (Ref P)) (vianum : Z)
  : list (Ref P) :=
  let mult := spacing_multiplier vianum in
  let viastack_ref := new_ref parent in
  let viastack_ref := move (inject_Z mult * viaspacing_full)%Q viastack_ref in
  let viastack_ref :=
    if num mod 2 =? 0 then move (viaspacing_full / 2)%Q viastack_ref
    else viastack_ref in
  (cell ++ [viastack_ref])%list.

(** The cell built by [via_array], before it is flattened. *)
Definition via_array_cell (glayer1 glayer2 : string) (size : Q * Q)
  : result ArrayCell :=
  '(level1, level2) <- __error_check_order_layers pdk glayer1 glayer2 ;;
  let viaarray := mkArrayCell [] [] in
  if level1 =? level2 then Ok viaarray
  else
    via_spacing <- compute_via_spacing level1 level2 ;;
    viastack <- via_stack pdk glayer1 glayer2 ;;
    let viadim := viadim_of viastack in
    if existsb (fun dim => Qltb dim viadim) [fst size; snd size]
    then Raise AreaTooSmall
    else
      let viaspacing_full := (via_spacing + viadim)%Q in
      num_x <- num_vias_of viadim via_spacing (fst size) ;;
      num_y <- num_vias_of viadim via_spacing (snd size) ;;
      let horizontal_vias : RowCell :=
        fold_left (place movex num_x viaspacing_full viastack)
                  (PyStr.range 0 num_x) [] in
      let rows :=
        fold_left (place movey num_y viaspacing_full horizontal_vias)
                  (PyStr.range 0 num_y) [] in
      top_met_layer <- get_glayer pdk ("met" ++ PyStr.str level2) ;;
      Ok (mkArrayCell rows [rectangle size top_met_layer]).

Definition via_array (glayer1 glayer2 : string) (size : Q * Q) : result Component :=
  cell <- via_array_cell glayer1 glayer2 size ;;
  Ok (flatten_array cell).

End ViaArray.

(** ** The packer over floating-point counts *)

(** The two floating-point operations of [floor(dim / (viadim +
    via_spacing))]: the sum and the quotient as the machine rounds them. *)
Record FloatOps : Type := {
  fadd : Q -> Q -> Q;
  fdiv : Q -> Q -> Q
}.

(** The operations without rounding, as [num_vias_of] has them. *)
Definition exact_ops : FloatOps := {| fadd := Qplus; fdiv := Qdiv |}.

Section ViaArrayWith.

Variable ops : FloatOps.
Variable pdk : MappedPDK.

(** [floor(dim / (viadim + via_spacing)) or 1] *)
Definition num_vias_with (viadim via_spacing dim : Q) : result Z :=
  let pitch := fadd ops viadim via_spacing in
  if Qeq_bool pitch 0 then Raise ZeroDivision
  else let n := Qfloor (fdiv ops dim pitch) in Ok (if n =? 0 then 1 else n).

(** [via_array] before flattening, line by line as [via_array_cell], with
    the counts of line 126 taken from [ops]. *)
Definition via_array_cell_with (glayer1 glayer2 : string) (size : Q * Q)
  : result ArrayCell :=
  '(level1, level2) <- __error_check_order_layers pdk glayer1 glayer2 ;;
  let viaarray := mkArrayCell [] [] in
  if level1 =? level2 then Ok viaarray
  else
    via_spacing <- compute_via_spacing pdk level1 level2 ;;
    viastack <- via_stack pdk glayer1 glayer2 ;;
    let viadim := viadim_of viastack in
    if existsb (fun dim => Qltb dim viadim) [fst size; snd size]
    then Raise AreaTooSmall
    else
      let viaspacing_full := (via_spacing + viadim)%Q in
      num_x <- num_vias_with viadim via_spacing (fst size) ;;
      num_y <- num_vias_with viadim via_spacing (snd size) ;;
      let horizontal_vias : RowCell :=
        fold_left (place movex num_x viaspacing_full viastack)
                  (PyStr.range 0 num_x) [] in
      let rows :=
        fold_left (place movey num_y viaspacing_full horizontal_vias)
                  (PyStr.range 0 num_y) [] in
      top_met_layer <- get_glayer pdk ("met" ++ PyStr.str level2) ;;
      Ok (mkArrayCell rows [rectangle size top_met_layer]).

Definition via_array_with (glayer1 glayer2 : string) (size : Q * Q)
  : result Component :=
  cell <- via_array_cell_with glayer1 glayer2 size ;;
  Ok (flatten_array cell).

End ViaArrayWith.

(** ** A sample rule source

    Three metal levels above a contact; the numbers are those of the
    examples: contact width 0.22, metal-1 minimum width 0.36, enclosure of the
    contact by metal-1 0.07; a met1-met2 stack of footprint 0.5 with margin
    0.3. *)

Module Sample.

Definition routable (glayer : string) : bool :=
  existsb (fun hint => PyStr.contains hint glayer) ["met"; "active"; "poly"].

Definition layer_table : list (string * Layer) :=
  [("active_diff", (65, 20)); ("poly", (66, 20)); ("mcon", (67, 44));
   ("met1", (68, 20)); ("via1", (68, 44)); ("met2", (69, 20));
   ("via2", (69, 44)); ("met3", (70, 20))].

Fixpoint assoc {A : Type} (t : list (string * A)) (k : string) : option A :=
  match t with
  | [] => None
  | (k', v) :: rest => if String.eqb k' k then Some v else assoc rest k
  end.

Definition self_rules : list (string * grule) :=
  [("mcon", [("width", 22 # 100); ("min_seperation", 17 # 100)]);
   ("met1", [("min_width", 36 # 100); ("min_seperation", 3 # 10)]);
   ("via1", [("width", 3 # 10); ("min_seperation", 25 # 100)]);
   ("met2", [("min_width", 4 # 10); ("min_seperation", 3 # 10)]);
   ("via2", [("width", 3 # 10); ("min_seperation", 3 # 10)]);
   ("met3", [("min_width", 5 # 10); ("min_seperation", 4 # 10)])].

Definition pair_rules : list (string * list (string * grule)) :=
  [("met1", [("mcon", [("min_enclosure", 7 # 100)]);
             ("via1", [("min_enclosure", 1 # 10)])]);
   ("met2", [("via1", [("min_enclosure", 5 # 100)]);
             ("via2", [("min_enclosure", 5 # 100)])]);
   ("met3", [("via2", [("min_enclosure", 1 # 10)])])].

Definition rules (glayer1 : string) (glayer2 : option string) : option grule :=
  match glayer2 with
  | None => assoc self_rules glayer1
  | Some g2 =>
      match assoc pair_rules glayer1 with
      | Some t => assoc t g2
      | None => None
      end
  end.

Definition pdk : MappedPDK :=
  {| is_routable_glayer := routable;
     glayer_available := fun g => match assoc layer_table g with
                                  | Some _ => true
                                  | None => false
                                  end;
     glayers := assoc layer_table;
     grules := rules |}.

(** The met1-met2 stack of the sample and the array that fills 4 x 2. *)
Definition stack12 : Component :=
  Eval vm_compute in
    match via_stack pdk "met1" "met2" with
    | Ok c => c
    | Raise _ => []
    end.

Definition stack23 : Component :=
  Eval vm_compute in
    match via_stack pdk "met2" "met3" with
    | Ok c => c
    | Raise _ => []
    end.

Definition array12 : ArrayCell :=
  Eval vm_compute in
    match via_array_cell pdk "met1" "met2" (4, 2)%Q with
    | Ok c => c
    | Raise _ => mkArrayCell [] []
    end.

(** A rule table whose separation rules are negative: the pitch of a
    met1-met2 array is 0.5 - 1 < 0. *)
Definition negative_self_rules : list (string * grule) :=
  [("met1", [("min_width", 1 # 4); ("min_seperation", - (1))%Q]);
   ("via1", [("width", 1 # 4); ("min_seperation", - (1))%Q]);
   ("met2", [("min_width", 1 # 4); ("min_seperation", - (1))%Q])].

Definition negative_pair_rules : list (string * list (string * grule)) :=
  [("met1", [("via1", [("min_enclosure", 1 # 8)])]);
   ("met2", [("via1", [("min_enclosure", 1 # 16)])])].

Definition negative_pdk : MappedPDK :=
  {| is_routable_glayer := routable;
     glayer_available := fun g => match assoc layer_table g with
                                  | Some _ => true
                                  | None => false
                                  end;
     glayers := assoc layer_table;
     grules := fun g1 g2 =>
                 match g2 with
                 | None => assoc negative_self_rules g1
                 | Some g => match assoc negative_pair_rules g1 with
                             | Some t => assoc t g
                             | None => None
                             end
                 end |}.

End Sample.

(** ** The trailing integer of a name *)

(** Following the spec's words ("its level is the trailing integer in its
    name"): the value of the longest run of decimal digits that ends the
    name, [None] when the name does not end in a digit. *)
Fixpoint trailing_integer_from (acc : option Z) (s : string) : option Z :=
  match s with
  | EmptyString => acc
  | String c rest =>
      trailing_integer_from
        (match PyStr.int_of_char c with
         | Ok d => Some (10 * match acc with Some a => a | None => 0 end + d)
         | Raise _ => None
         end) rest
  end.

Definition trailing_integer (s : string) : option Z := trailing_integer_from None s.

(** ** Vocabulary of the statements *)

Definition met (level : Z) : string := "met" ++ PyStr.str level.
Definition via (level : Z) : string := "via" ++ PyStr.str level.

(** [r] is the cut drawn for the via or contact layer [v]: a centred square
    of side the width rule of [v]. *)
Definition is_cut (pdk : MappedPDK) (v : string) (r : Rect) : Prop :=
  exists w lay,
    rule1 pdk v "width" = Ok w /\ get_glayer pdk v = Ok lay /\
    r = rectangle (w, w) lay.

(** [r] is the pad drawn for the metal [m] around its adjacent via or
    contact [v]: a centred square of side
    max (2 * enclosure(m, v) + width(v), min_width(m)). *)
Definition is_pad (pdk : MappedPDK) (m v : string) (r : Rect) : Prop :=
  exists enc w minw lay,
    rule2 pdk m v "min_enclosure" = Ok enc /\ rule1 pdk v "width" = Ok w /\
    rule1 pdk m "min_width" = Ok minw /\ get_glayer pdk m = Ok lay /\
    r = rectangle (Qmax (2 * enc + w) minw, Qmax (2 * enc + w) minw) lay.

(** The side of [r] dominates both rule classes of the pair ([m], [v]). *)
Definition pad_bounds (pdk : MappedPDK) (m v : string) (r : Rect) : Prop :=
  exists enc w minw,
    rule2 pdk m v "min_enclosure" = Ok enc /\ rule1 pdk v "width" = Ok w /\
    rule1 pdk m "min_width" = Ok minw /\
    (minw <= r_w r)%Q /\ (2 * enc + w <= r_w r)%Q /\
    (minw <= r_h r)%Q /\ (2 * enc + w <= r_h r)%Q.

(** What the traversal of the levels [levels] draws: for each level the
    pad of that metal around the via above it, then the cut of that via. *)
Inductive levels_laid (pdk : MappedPDK) : list Z -> Component -> Prop :=
| laid_nil : levels_laid pdk [] []
| laid_cons l ls pad cut rest :
    is_pad pdk (met l) (via l) pad ->
    is_cut pdk (via l) cut ->
    levels_laid pdk ls rest ->
    levels_laid pdk (l :: ls) (pad :: cut :: rest).

(** The geometry of a stack between the levels [lo] < [hi]. *)
Definition stack_shape (pdk : MappedPDK) (lo hi : Z) (c : Component) : Prop :=
  exists base body top,
    c = (base ++ body ++ top)%list /\
    (if lo =? 0
     then exists cut pad, base = [cut; pad] /\ is_cut pdk "mcon" cut /\
                          is_pad pdk "met1" "mcon" pad
     else base = []) /\
    levels_laid pdk (PyStr.range (Z.max lo 1) hi) body /\
    (if Z.max lo 1 <? hi
     then exists pad, top = [pad] /\ is_pad pdk (met hi) (via (hi - 1)) pad
     else top = []).

Definition centred_square (r : Rect) : Prop :=
  r_cx r = 0%Q /\ r_cy r = 0%Q /\ r_w r = r_h r.

(** The layers a stack between the levels [lo] and [hi] draws on: the
    contact when [lo] is 0, every traversed metal and the via above it, and
    the upper metal. *)
Definition stack_layers (lo hi : Z) : list string :=
  ((if lo =? 0 then ["mcon"] else [])
   ++ flat_map (fun l => [met l; via l]) (PyStr.range (Z.max lo 1) hi)
   ++ [met hi])%list.

(** Where the placement loop leaves the reference of index [vianum], along
    the axis of the loop, in an array of [num] references of pitch [full]. *)
Definition axis_offset (num : Z) (full : Q) (vianum : Z) : Q :=
  let at_multiple := (0 + inject_Z (spacing_multiplier vianum) * full)%Q in
  if num mod 2 =? 0 then (at_multiple + full / 2)%Q else at_multiple.

Definition row_of (stack : Component) (num : Z) (full : Q) : RowCell :=
  map (fun i => mkRef stack (axis_offset num full i) 0%Q) (PyStr.range 0 num).

Definition rows_of (row : RowCell) (num : Z) (full : Q) : list (Ref RowCell) :=
  map (fun j => mkRef row 0%Q (axis_offset num full j)) (PyStr.range 0 num).

(** [p] and [q] are the positions of two adjacent instances of an axis:
    [p] lies before [q] and no instance lies strictly between them. *)
Definition neighbours (positions : list Q) (p q : Q) : Prop :=
  In p positions /\ In q positions /\ (p < q)%Q /\
  ~ exists r, In r positions /\ (p < r)%Q /\ (r < q)%Q.

(** [s] is the minimum-separation rule of the layer [g]. *)
Definition sep_rule (pdk : MappedPDK) (g : string) (s : Q) : Prop :=
  rule1 pdk g "min_seperation" = Ok s.

(** The positions of the instances of one axis are centred: they are
    symmetric about 0; with an odd count the first instance (index 0) is at
    0 and as many instances, (count - 1) / 2, lie on either side of it; with
    an even count no instance is at 0. *)
Definition axis_centred (positions : list Q) : Prop :=
  let count := Z.of_nat (length positions) in
  (forall p, In p positions -> exists q, In q positions /\ (q == - p)%Q) /\
  (Z.odd count = true ->
   (exists p0 rest, positions = p0 :: rest /\ (p0 == 0)%Q) /\
   Z.of_nat (length (filter (fun p => Qltb p 0) positions)) = (count - 1) / 2 /\
   Z.of_nat (length (filter (fun p => Qltb 0 p) positions)) = (count - 1) / 2) /\
  (Z.even count = true -> forall p, In p positions -> ~ (p == 0)%Q).

(** The rectangle [r] is drawn on the concrete layer of the generic layer
    [g]. *)
Definition drawn_on (pdk : MappedPDK) (g : string) (r : Rect) : Prop :=
  get_glayer pdk g = Ok (r_layer r).

(** The component [c] draws on exactly the generic layers [layers]. *)
Definition draws_on_exactly (pdk : MappedPDK) (layers : list string)
           (c : Component) : Prop :=
  (forall r, In r c -> exists g, In g layers /\ drawn_on pdk g r) /\
  (forall g, In g layers -> exists r, In r c /\ drawn_on pdk g r).

(** The rule source can size the pad of the metal [m] around [v]: the
    enclosure rule of the pair, the width rule of [v], the minimum-width
    rule of [m] and the concrete layer of [m] are all present. *)
Definition pad_rules (pdk : MappedPDK) (m v : string) : Prop :=
  (exists enc, rule2 pdk m v "min_enclosure" = Ok enc) /\
  (exists w, rule1 pdk v "width" = Ok w) /\
  (exists minw, rule1 pdk m "min_width" = Ok minw) /\
  (exists lay, get_glayer pdk m = Ok lay).

(** The rule source can draw the cut of [v]. *)
Definition cut_rules (pdk : MappedPDK) (v : string) : Prop :=
  (exists w, rule1 pdk v "width" = Ok w) /\ (exists lay, get_glayer pdk v = Ok lay).

(** Everything [via_stack] asks of the rule source for a stack between the
    levels [lo] < [hi]. *)
Definition stack_rules_present (pdk : MappedPDK) (lo hi : Z) : Prop :=
  (lo = 0 ->
   has_required_glayers pdk ["mcon"; "met1"] = Ok tt /\
   cut_rules pdk "mcon" /\ pad_rules pdk "met1" "mcon") /\
  (forall l, Z.max lo 1 <= l < hi ->
             has_required_glayers pdk [met l; via l] = Ok tt /\
             pad_rules pdk (met l) (via l) /\ cut_rules pdk (via l)) /\
  (Z.max lo 1 < hi -> pad_rules pdk (met hi) (via (hi - 1))).

(** The positions are those of a regular grid of the given pitch: with n
    positions, they are first, first + pitch, ..., first + (n-1) * pitch. *)
Definition evenly_spaced (pitch : Q) (positions : list Q) : Prop :=
  exists first,
    (forall k, (k < length positions)%nat ->
               exists p, In p positions /\
                         (p == first + inject_Z (Z.of_nat k) * pitch)%Q) /\
    (forall p, In p positions ->
               exists k, (k < length positions)%nat /\
                         (p == first + inject_Z (Z.of_nat k) * pitch)%Q).

(** Any two positions of different indices are at least one pitch apart. *)
Definition pairwise_apart (pitch : Q) (positions : list Q) : Prop :=
  forall i j p q,
    nth_error positions i = Some p -> nth_error positions j = Some q -> i <> j ->
    (pitch <= q - p \/ pitch <= p - q)%Q.

(** The rectangles of [stack] moved to the instance at ([x], [y]), as the
    two nested references move them. *)
Definition stack_at (stack : Component) (x y : Q) : Component :=
  map (fun r0 => mkRect (r_layer r0) (r_cx r0 + x + 0) (r_cy r0 + 0 + y)
                        (r_w r0) (r_h r0)) stack.

(** [ny] rows of [nx] instances of [stack], at the positions of the
    placement loops. *)
Definition grid_of (stack : Component) (nx ny : Z) (full : Q) : Component :=
  flat_map (fun j =>
              flat_map (fun i => stack_at stack (axis_offset nx full i)
                                          (axis_offset ny full j))
                       (PyStr.range 0 nx))
           (PyStr.range 0 ny).

(** * Properties *)

(** ** The error monad *)

Lemma bind_Ok {A B : Type} (m : result A) (k : A -> result B) (b : B) :
  bind m k = Ok b -> exists a, m = Ok a /\ k a = Ok b.
Proof.
  destruct m as [a|e]; simpl; intros H; [eauto | discriminate].
Qed.

Ltac inv_bind H :=
  let a := fresh "v" in
  let Ha := fresh "E" in
  apply bind_Ok in H; destruct H as (a & Ha & H).

Ltac inv_binds H :=
  repeat (first [ inv_bind H
                | match type of H with
                  | (let (_, _) := ?p in _) = _ => destruct p
                  end ]).

(** ** Ranges *)

Module RangeFacts.
Import PyStr.

Lemma range_empty lo hi : hi <= lo -> range lo hi = [].
Proof.
  intros H. unfold range. replace (Z.to_nat (hi - lo)) with 0%nat by lia.
  reflexivity.
Qed.

Lemma range_cons lo hi : lo < hi -> range lo hi = lo :: range (lo + 1) hi.
Proof.
  intros H. unfold range.
  replace (Z.to_nat (hi - lo)) with (S (Z.to_nat (hi - (lo + 1)))) by lia.
  simpl. f_equal; [lia|].
  rewrite <- seq_shift, map_map. apply map_ext. intros i. lia.
Qed.

Lemma range_snoc lo hi : lo <= hi -> range lo (hi + 1) = (range lo hi ++ [hi])%list.
Proof.
  intros H. unfold range.
  replace (Z.to_nat (hi + 1 - lo)) with (Z.to_nat (hi - lo) + 1)%nat by lia.
  rewrite seq_app, map_app. simpl. do 2 f_equal. lia.
Qed.

Lemma range_length lo hi : length (range lo hi) = Z.to_nat (hi - lo).
Proof. unfold range. now rewrite length_map, length_seq. Qed.

Lemma in_range lo hi i : In i (range lo hi) <-> lo <= i < hi.
Proof.
  unfold range. rewrite in_map_iff. split.
  - intros (k & <- & Hk). apply in_seq in Hk. lia.
  - intros H. exists (Z.to_nat (i - lo)). split; [lia|]. apply in_seq. lia.
Qed.

End RangeFacts.

(** ** Layer-order resolver *)

Lemma int_of_char_range c d : PyStr.int_of_char c = Ok d -> 0 <= d <= 9.
Proof.
  unfold PyStr.int_of_char.
  destruct (_ && _) eqn:E; [|discriminate].
  intros [= <-]. apply andb_true_iff in E. lia.
Qed.

Lemma glayer_level_range g l : glayer_level g = Ok l -> 0 <= l <= 9.
Proof.
  unfold glayer_level. destruct (PyStr.contains _ _).
  - destruct (PyStr.last g); [apply int_of_char_range | discriminate].
  - intros [= <-]. lia.
Qed.

Lemma resolver_inv pdk a b lo hi :
  __error_check_order_layers pdk a b = Ok (lo, hi) ->
  is_routable_glayer pdk a = true /\ is_routable_glayer pdk b = true /\
  exists la lb, glayer_level a = Ok la /\ glayer_level b = Ok lb /\
                lo = Z.min la lb /\ hi = Z.max la lb.
Proof.
  unfold __error_check_order_layers. simpl.
  destruct (is_routable_glayer pdk a); [|discriminate].
  destruct (is_routable_glayer pdk b); [|discriminate]. simpl.
  intros H. inv_binds H.
  repeat split; trivial. exists v, v0.
  destruct (v >? v0) eqn:C; injection H as <- <-; repeat split; trivial; lia.
Qed.

Lemma resolver_ordered pdk a b lo hi :
  __error_check_order_layers pdk a b = Ok (lo, hi) -> 0 <= lo <= hi /\ hi <= 9.
Proof.
  intros H. apply resolver_inv in H as (_ & _ & la & lb & Ha & Hb & -> & ->).
  apply glayer_level_range in Ha, Hb. lia.
Qed.

Lemma resolver_comm pdk a b :
  __error_check_order_layers pdk a b = __error_check_order_layers pdk b a.
Proof.
  unfold __error_check_order_layers. simpl.
  destruct (is_routable_glayer pdk a), (is_routable_glayer pdk b); simpl; trivial.
  destruct (glayer_level a) as [la|ea] eqn:Heqr, (glayer_level b) as [lb|eb] eqn:Heqr0;
    simpl; trivial.
  - destruct (la >? lb) eqn:C1, (lb >? la) eqn:C2; trivial; [lia|].
    f_equal. f_equal; lia.
  - unfold glayer_level in *.
    destruct (PyStr.contains "met" a); [|discriminate].
    destruct (PyStr.contains "met" b); [|discriminate].
    assert (Hbad : forall s e, match PyStr.last s with
                               | Some c => PyStr.int_of_char c
                               | None => Raise BadLevel
                               end = Raise e -> e = BadLevel).
    { intros s e. destruct (PyStr.last s) as [c|]; [|congruence].
      unfold PyStr.int_of_char. destruct (_ && _); congruence. }
    apply Hbad in Heqr. apply Hbad in Heqr0. congruence.
Qed.

(** ** Via-stack synthesizer *)

Section ViaStackFacts.

Variable pdk : MappedPDK.

Lemma lay_mcon_inv vs vs' :
  lay_mcon pdk vs = Ok vs' ->
  exists cut pad, vs' = (vs ++ [cut; pad])%list /\
                  is_cut pdk "mcon" cut /\ is_pad pdk "met1" "mcon" pad.
Proof.
  unfold lay_mcon. intros H. inv_binds H. injection H as <-.
  eexists _, _. split; [unfold add_ref; rewrite <- app_assoc; reflexivity|].
  split.
  - exists v0, v1. auto.
  - exists v2, v0, v3, v4. auto.
Qed.

Lemma lay_level_inv vs l vs' :
  lay_level pdk vs l = Ok vs' ->
  exists pad cut, vs' = (vs ++ [pad; cut])%list /\
                  is_pad pdk (met l) (via l) pad /\ is_cut pdk (via l) cut.
Proof.
  unfold lay_level. intros H. inv_binds H. injection H as <-.
  eexists _, _. split; [unfold add_ref; rewrite <- app_assoc; reflexivity|].
  split.
  - exists v0, v1, v2, v3. auto.
  - exists v4, v5. auto.
Qed.

Lemma last_cons_default {A : Type} (l : list A) : forall x d,
  List.last (x :: l) d = List.last l x.
Proof.
  induction l as [|y l IH]; intros x d; [reflexivity|].
  change (List.last (y :: l) d = List.last (y :: l) x). now rewrite !IH.
Qed.

Lemma lay_levels_inv levels : forall vs lv vs' lv',
  lay_levels pdk levels vs lv = Ok (vs', lv') ->
  exists added, vs' = (vs ++ added)%list /\ levels_laid pdk levels added /\
                lv' = List.last (map Some levels) lv.
Proof.
  induction levels as [|l ls IH]; intros vs lv vs' lv' H.
  - injection H as <- <-. exists []. rewrite app_nil_r. repeat split. constructor.
  - cbn [lay_levels] in H. inv_bind H.
    apply lay_level_inv in E as (pad & cut & -> & Hpad & Hcut).
    apply IH in H as (added & -> & Hl & ->).
    exists (pad :: cut :: added). rewrite <- app_assoc. repeat split.
    + now constructor.
    + cbn [map]. now rewrite last_cons_default.
Qed.

Lemma levels_laid_length levels c :
  levels_laid pdk levels c -> length c = (2 * length levels)%nat.
Proof. induction 1; simpl; lia. Qed.

Lemma last_range lo hi d :
  lo < hi -> List.last (map Some (PyStr.range lo hi)) d = Some (hi - 1).
Proof.
  intros H. replace hi with ((hi - 1) + 1) at 1 by lia.
  rewrite RangeFacts.range_snoc by lia. rewrite map_app. apply last_last.
Qed.

Lemma lay_metals_inv vs l1 l2 c :
  1 <= l1 < l2 ->
  lay_metals pdk vs l1 l2 = Ok c ->
  exists body pad, c = (vs ++ body ++ [pad])%list /\
                   levels_laid pdk (PyStr.range l1 l2) body /\
                   is_pad pdk (met l2) (via (l2 - 1)) pad.
Proof.
  intros Hl. unfold lay_metals.
  replace (l1 =? 0) with false by lia. replace (l2 =? 0) with false by lia.
  cbn [negb andb]. intros H. inv_bind H. destruct v as [vs1 lv].
  apply lay_levels_inv in E as (body & -> & Hbody & ->).
  rewrite last_range in H by lia. cbn [bind] in H.
  inv_binds H. injection H as <-.
  exists body. eexists. split.
  - unfold flatten, add_ref. rewrite <- app_assoc. reflexivity.
  - split; trivial. exists v, v0, v1, v2. auto.
Qed.

Lemma via_stack_same_level a b l :
  __error_check_order_layers pdk a b = Ok (l, l) -> via_stack pdk a b = Ok [].
Proof.
  intros H. unfold via_stack. rewrite H. cbn [bind]. now rewrite Z.eqb_refl.
Qed.

Lemma via_stack_shape a b lo hi c :
  __error_check_order_layers pdk a b = Ok (lo, hi) ->
  lo <> hi ->
  via_stack pdk a b = Ok c ->
  stack_shape pdk lo hi c.
Proof.
  intros Hr Hne. pose proof (resolver_ordered _ _ _ _ _ Hr) as Hord.
  unfold via_stack. rewrite Hr. cbn [bind].
  replace (lo =? hi) with false by lia.
  destruct (lo =? 0) eqn:E0.
  - apply Z.eqb_eq in E0. subst lo. intros H. inv_bind H.
    apply lay_mcon_inv in E as (cut & pad & -> & Hcut & Hpad).
    cbn [app] in H. destruct (0 + 1 =? hi) eqn:E1.
    + injection H as <-. apply Z.eqb_eq in E1. subst hi.
      exists [cut; pad], [], []. split; [reflexivity|].
      split; [cbn; eauto|]. split; [|reflexivity].
      rewrite RangeFacts.range_empty by lia. constructor.
    + apply Z.eqb_neq in E1.
      apply lay_metals_inv in H as (body & tp & -> & Hb & Ht); [|lia].
      exists [cut; pad], body, [tp]. split; [reflexivity|].
      split; [cbn; eauto|]. split; [exact Hb|].
      replace (Z.max 0 1 <? hi) with true by lia. eauto.
  - apply Z.eqb_neq in E0.
    intros H. apply lay_metals_inv in H as (body & tp & -> & Hb & Ht); [|lia].
    exists [], body, [tp]. split; [reflexivity|].
    replace (lo =? 0) with false by lia. split; [reflexivity|].
    replace (Z.max lo 1) with lo by lia. split; [exact Hb|].
    replace (lo <? hi) with true by lia. eauto.
Qed.

Lemma is_pad_bounds m v r : is_pad pdk m v r -> pad_bounds pdk m v r.
Proof.
  intros (enc & w & minw & lay & He & Hw & Hm & _ & ->).
  exists enc, w, minw. cbn. repeat split; trivial;
    try apply Q.le_max_r; apply Q.le_max_l.
Qed.

Lemma is_pad_square m v r : is_pad pdk m v r -> centred_square r.
Proof. intros (? & ? & ? & ? & _ & _ & _ & _ & ->). repeat split. Qed.

Lemma is_cut_square v r : is_cut pdk v r -> centred_square r.
Proof. intros (? & ? & _ & _ & ->). repeat split. Qed.

Lemma levels_laid_squares levels c :
  levels_laid pdk levels c -> Forall centred_square c.
Proof.
  induction 1; constructor; [|constructor]; eauto using is_pad_square, is_cut_square.
Qed.

Lemma is_pad_drawn m v r : is_pad pdk m v r -> drawn_on pdk m r.
Proof. intros (? & ? & ? & lay & _ & _ & _ & H & ->). exact H. Qed.

Lemma is_cut_drawn v r : is_cut pdk v r -> drawn_on pdk v r.
Proof. intros (? & lay & _ & H & ->). exact H. Qed.

Lemma levels_laid_draws levels c :
  levels_laid pdk levels c ->
  draws_on_exactly pdk (flat_map (fun l => [met l; via l]) levels) c.
Proof.
  induction 1 as [|l ls pad cut rest Hp Hc _ [IH1 IH2]]; split.
  - intros r [].
  - intros g [].
  - intros r [<- | [<- | Hr]].
    + exists (met l). split; [left; reflexivity | eauto using is_pad_drawn].
    + exists (via l). split; [right; left; reflexivity | eauto using is_cut_drawn].
    + destruct (IH1 r Hr) as (g & Hg & Hd). exists g. split; [right; right|]; trivial.
  - intros g [<- | [<- | Hg]].
    + exists pad. split; [left; reflexivity | eauto using is_pad_drawn].
    + exists cut. split; [right; left; reflexivity | eauto using is_cut_drawn].
    + destruct (IH2 g Hg) as (r & Hr & Hd). exists r. split; [right; right|]; trivial.
Qed.

(** A stack draws on exactly the layers of [stack_layers]. *)
Lemma stack_shape_draws lo hi c :
  0 <= lo < hi -> stack_shape pdk lo hi c ->
  draws_on_exactly pdk (stack_layers lo hi) c.
Proof.
  intros Hl (base & body & top & -> & Hbase & Hbody & Htop).
  destruct (levels_laid_draws _ _ Hbody) as [B1 B2].
  assert (Hmet1 : lo = 0 -> In "met1" (stack_layers lo hi)).
  { intros ->. unfold stack_layers. cbn [Z.eqb app]. right.
    apply in_or_app. destruct (Z.eq_dec hi 1) as [-> | Hne].
    - right. left. reflexivity.
    - left. apply in_flat_map. exists 1. split; [|left; reflexivity].
      apply RangeFacts.in_range. lia. }
  unfold stack_layers. split.
  - intros r Hr. apply in_app_or in Hr as [Hr | Hr];
      [|apply in_app_or in Hr as [Hr | Hr]].
    + destruct (lo =? 0) eqn:E0; [|subst base; destruct Hr].
      destruct Hbase as (cut & pad & -> & Hc & Hp).
      destruct Hr as [<- | [<- | []]].
      * exists "mcon". split; [left; reflexivity | eauto using is_cut_drawn].
      * exists "met1". split; [|eauto using is_pad_drawn].
        apply Z.eqb_eq in E0. specialize (Hmet1 E0). unfold stack_layers in Hmet1.
        now rewrite E0 in Hmet1; subst lo.
    + destruct (B1 r Hr) as (g & Hg & Hd). exists g. split; trivial.
      apply in_or_app. right. apply in_or_app. left. exact Hg.
    + destruct (Z.max lo 1 <? hi); [|subst top; destruct Hr].
      destruct Htop as (pad & -> & Hp). destruct Hr as [<- | []].
      exists (met hi). split; [|eauto using is_pad_drawn].
      apply in_or_app. right. apply in_or_app. right. left. reflexivity.
  - intros g Hg. apply in_app_or in Hg as [Hg | Hg];
      [|apply in_app_or in Hg as [Hg | Hg]].
    + destruct (lo =? 0); [|destruct Hg].
      destruct Hbase as (cut & pad & -> & Hc & Hp). destruct Hg as [<- | []].
      exists cut. split; [left; reflexivity | eauto using is_cut_drawn].
    + destruct (B2 g Hg) as (r & Hr & Hd). exists r. split; trivial.
      apply in_or_app. right. apply in_or_app. left. exact Hr.
    + destruct Hg as [<- | []]. destruct (Z.max lo 1 <? hi) eqn:E.
      * destruct Htop as (pad & -> & Hp). exists pad.
        split; [|eauto using is_pad_drawn].
        apply in_or_app. right. apply in_or_app. right. left. reflexivity.
      * assert (lo = 0 /\ hi = 1) as [-> ->] by lia. cbn in Hbase.
        destruct Hbase as (cut & pad & -> & Hc & Hp). exists pad.
        split; [right; left; reflexivity|].
        exact (is_pad_drawn _ _ _ Hp).
Qed.

End ViaStackFacts.

(** ** Statements about the resolver and the synthesizer *)

(** C2. Commutativity: for every rule source and every two layer names the
    layer-order resolver returns the same ascending pair whichever way the
    names are passed, and [via_stack] returns the same result (the same
    geometry, rectangle for rectangle) for both orders. *)
Theorem via_stack_commutative (pdk : MappedPDK) (a b : string) :
  __error_check_order_layers pdk a b = __error_check_order_layers pdk b a /\
  via_stack pdk a b = via_stack pdk b a.
Proof.
  pose proof (resolver_comm pdk a b) as H. split; [exact H|].
  unfold via_stack. now rewrite H.
Qed.

(** C3 as written fails: for a layer that is not routable the call with
    twice the same name is an error, not the empty geometry. *)
Lemma via_stack_same_unroutable_layer_raises :
  via_stack Sample.pdk "nwell" "nwell" = Raise InvalidLayer /\
  via_stack Sample.pdk "nwell" "nwell" <> Ok [].
Proof. split; [reflexivity | discriminate]. Qed.

(** C3, amended. Identity: for every routable layer A whose level resolves
    (a name without "met", or a name with "met" that ends in a digit),
    [via_stack] of A and A returns the empty geometry, not an error. *)
Theorem via_stack_same_layer_empty (pdk : MappedPDK) (a : string) (l : Z) :
  is_routable_glayer pdk a = true ->
  glayer_level a = Ok l ->
  via_stack pdk a a = Ok [].
Proof.
  intros Hr Hl. apply via_stack_same_level with (l := l).
  unfold __error_check_order_layers. cbn [forallb]. rewrite Hr, Hl. cbn.
  now rewrite Z.gtb_ltb, Z.ltb_irrefl.
Qed.

Lemma via_stack_same_layer_empty_witness :
  via_stack Sample.pdk "met2" "met2" = Ok [].
Proof.
  apply (via_stack_same_layer_empty Sample.pdk "met2" 2); reflexivity.
Defined.

(** C1. Pad sizing: when the two layers resolve to distinct levels, the
    geometry of [via_stack] is the contact and its metal-1 pad (when the low
    level is 0), then for each traversed level the pad of that metal and the
    cut of the via above it, then the pad of the upper metal; every pad is
    a square of side max (2 * enclosure + width of the adjacent via or
    contact, minimum width of the metal), hence at least the metal's
    minimum width and at least 2 * enclosure + inner width. *)
Theorem via_stack_pad_sizing (pdk : MappedPDK) (a b : string) (lo hi : Z)
        (c : Component) :
  __error_check_order_layers pdk a b = Ok (lo, hi) ->
  lo <> hi ->
  via_stack pdk a b = Ok c ->
  stack_shape pdk lo hi c /\
  Forall (fun r => (exists v, is_cut pdk v r) \/
                   (exists m v, is_pad pdk m v r /\ pad_bounds pdk m v r)) c.
Proof.
  intros Hr Hne Hs. pose proof (via_stack_shape pdk a b lo hi c Hr Hne Hs) as Hshape.
  split; [exact Hshape|].
  destruct Hshape as (base & body & top & -> & Hbase & Hbody & Htop).
  apply Forall_app; split; [|apply Forall_app; split].
  - destruct (lo =? 0).
    + destruct Hbase as (cut & pad & -> & Hc & Hp).
      constructor; [left; eauto|].
      constructor; [right; eauto 6 using is_pad_bounds | constructor].
    + subst base. constructor.
  - clear Htop Hbase Hs. induction Hbody; [constructor|].
    constructor; [right; eauto 6 using is_pad_bounds|].
    constructor; [left; eauto | assumption].
  - destruct (Z.max lo 1 <? hi).
    + destruct Htop as (pad & -> & Hp).
      constructor; [right; eauto 6 using is_pad_bounds | constructor].
    + subst top. constructor.
Qed.

Lemma via_stack_pad_sizing_witness :
  exists c,
    via_stack Sample.pdk "poly" "met3" = Ok c /\
    stack_shape Sample.pdk 0 3 c /\
    Forall (fun r => (exists v, is_cut Sample.pdk v r) \/
                     (exists m v, is_pad Sample.pdk m v r /\
                                  pad_bounds Sample.pdk m v r)) c.
Proof.
  eexists. split; [vm_compute; reflexivity|].
  apply (via_stack_pad_sizing Sample.pdk "poly" "met3" 0 3);
    [reflexivity | lia | reflexivity].
Defined.

(** C9 as written fails: between a base layer (level 0) and metal 1 the
    stack holds two rectangles, the contact and the metal-1 pad, not
    2 * (1 - 0) + 1 = 3. *)
Lemma via_stack_contact_to_met1_has_two_rectangles :
  exists c,
    __error_check_order_layers Sample.pdk "active_diff" "met1" = Ok (0, 1) /\
    via_stack Sample.pdk "active_diff" "met1" = Ok c /\
    Z.of_nat (length c) = 2 /\
    Z.of_nat (length c) <> 2 * (1 - 0) + 1.
Proof.
  eexists. split; [reflexivity|]. split; [vm_compute; reflexivity|].
  split; [reflexivity | discriminate].
Qed.

(** C9, amended. For every layer pair whose resolved levels satisfy
    low < high, the geometry returned by [via_stack] holds exactly
    2 * (high - low) + 1 rectangles, except for low = 0 and high = 1, where
    it holds exactly 2; each rectangle is a square centred on the origin. *)
Theorem via_stack_rectangle_count (pdk : MappedPDK) (a b : string) (lo hi : Z)
        (c : Component) :
  __error_check_order_layers pdk a b = Ok (lo, hi) ->
  lo < hi ->
  via_stack pdk a b = Ok c ->
  Z.of_nat (length c) = (if (lo =? 0) && (hi =? 1) then 2 else 2 * (hi - lo) + 1) /\
  Forall centred_square c.
Proof.
  intros Hr Hlt Hs. pose proof (resolver_ordered _ _ _ _ _ Hr) as Hord.
  assert (Hne : lo <> hi) by lia.
  destruct (via_stack_shape pdk a b lo hi c Hr Hne Hs)
    as (base & body & top & -> & Hbase & Hbody & Htop).
  pose proof (levels_laid_length _ _ _ Hbody) as Hlen.
  rewrite RangeFacts.range_length in Hlen.
  split.
  - rewrite !length_app.
    destruct (lo =? 0) eqn:E0.
    + destruct Hbase as (cut & pad & -> & _ & _).
      destruct (Z.max lo 1 <? hi) eqn:E1.
      * destruct Htop as (p & -> & _). replace (hi =? 1) with false by lia.
        cbn [andb length]. lia.
      * subst top. replace (hi =? 1) with true by lia. cbn [andb length]. lia.
    + subst base. cbn [andb length].
      destruct (Z.max lo 1 <? hi) eqn:E1; [|lia].
      destruct Htop as (p & -> & _). cbn [length]. lia.
  - apply Forall_app; split; [|apply Forall_app; split].
    + destruct (lo =? 0).
      * destruct Hbase as (cut & pad & -> & Hc & Hp).
        constructor; [eauto using is_cut_square|].
        constructor; [eauto using is_pad_square | constructor].
      * subst base. constructor.
    + eapply levels_laid_squares; eauto.
    + destruct (Z.max lo 1 <? hi).
      * destruct Htop as (p & -> & Hp).
        constructor; [eauto using is_pad_square | constructor].
      * subst top. constructor.
Qed.

Lemma via_stack_rectangle_count_witness :
  exists c,
    via_stack Sample.pdk "met3" "met1" = Ok c /\
    Z.of_nat (length c) = 5 /\ Forall centred_square c.
Proof.
  eexists. split; [vm_compute; reflexivity|].
  apply (via_stack_rectangle_count Sample.pdk "met3" "met1" 1 3);
    [reflexivity | lia | reflexivity].
Defined.

(** ** Via-array packer *)

Section ViaArrayFacts.

Variable pdk : MappedPDK.

(** *** The pitch margin *)

Lemma Qmax_cases x y : Qmax x y = x \/ Qmax x y = y.
Proof.
  unfold Qmax, GenericMinMax.gmax. destruct (x ?= y)%Q; auto.
Qed.

Lemma fold_Qmax_in l : forall x, In (fold_left Qmax l x) (x :: l).
Proof.
  induction l as [|y l IH]; intros x; [left; reflexivity|].
  cbn [fold_left]. destruct (IH (Qmax x y)) as [H|H].
  - rewrite <- H. destruct (Qmax_cases x y) as [-> | ->]; [left | right; left]; trivial.
  - right; right; exact H.
Qed.

Lemma fold_Qmax_ge l : forall x,
  (x <= fold_left Qmax l x)%Q /\ Forall (fun s => (s <= fold_left Qmax l x)%Q) l.
Proof.
  induction l as [|y l IH]; intros x; cbn [fold_left].
  - split; [apply Qle_refl | constructor].
  - destruct (IH (Qmax x y)) as [H1 H2]. split; [|constructor; trivial].
    + eapply Qle_trans; [apply Q.le_max_l | exact H1].
    + eapply Qle_trans; [apply Q.le_max_r | exact H1].
Qed.

Lemma py_max_spec l m :
  py_max l = Ok m -> In m l /\ Forall (fun s => (s <= m)%Q) l.
Proof.
  destruct l as [|x l]; [discriminate|]. intros [= <-]. split.
  - apply fold_Qmax_in.
  - constructor; apply fold_Qmax_ge.
Qed.

Lemma spacing_levels_inv levels : forall vs vs',
  spacing_levels pdk levels vs = Ok vs' ->
  exists added, vs' = (vs ++ added)%list /\
                Forall2 (sep_rule pdk) (flat_map (fun l => [met l; via l]) levels) added.
Proof.
  induction levels as [|l ls IH]; intros vs vs' H.
  - injection H as <-. exists []. rewrite app_nil_r. split; [trivial | constructor].
  - cbn [spacing_levels] in H. inv_bind H. unfold spacing_level in E.
    inv_binds E. injection E as <-.
    apply IH in H as (added & -> & Hadd).
    exists (v0 :: v1 :: added). rewrite <- !app_assoc. split; [reflexivity|].
    cbn [flat_map app]. constructor; [exact E0|]. constructor; [exact E1 | exact Hadd].
Qed.

Lemma compute_via_spacing_inv lo hi m :
  0 <= lo ->
  compute_via_spacing pdk lo hi = Ok m ->
  exists seps, Forall2 (sep_rule pdk) (stack_layers lo hi) seps /\
               In m seps /\ Forall (fun s => (s <= m)%Q) seps.
Proof.
  intros Hlo. unfold compute_via_spacing, stack_layers. intros H.
  inv_bind H. inv_bind H. inv_bind H.
  apply spacing_levels_inv in E0 as (added & -> & Hadd).
  apply py_max_spec in H as [Hin Hall].
  exists ((v ++ added) ++ [v1])%list. split; [|split; trivial].
  rewrite <- app_assoc.
  destruct (lo =? 0) eqn:E0; cbn [negb] in *.
  - apply Z.eqb_eq in E0. subst lo. inv_bind E. injection E as <-.
    cbn [app]. constructor; [exact E0|].
    apply Forall2_app; [exact Hadd|]. constructor; [exact E1 | constructor].
  - injection E as <-. apply Z.eqb_neq in E0.
    replace (Z.max lo 1) with lo by lia. cbn [app].
    apply Forall2_app; [exact Hadd|]. constructor; [exact E1 | constructor].
Qed.

(** *** The footprint of the reference stack *)

Lemma fold_Qmin_le (f : Rect -> Q) l : forall x,
  (fold_left (fun acc r => Qmin acc (f r)) l x <= x)%Q.
Proof.
  induction l as [|y l IH]; intros x; cbn [fold_left]; [apply Qle_refl|].
  eapply Qle_trans; [apply IH | apply Q.le_min_l].
Qed.

Lemma fold_Qmax_le (f : Rect -> Q) l : forall x,
  (x <= fold_left (fun acc r => Qmax acc (f r)) l x)%Q.
Proof.
  induction l as [|y l IH]; intros x; cbn [fold_left]; [apply Qle_refl|].
  eapply Qle_trans; [apply Q.le_max_l | apply IH].
Qed.

Lemma xmin_le_xmax c : (xmin c <= xmax c)%Q.
Proof.
  destruct c as [|r c]; [apply Qle_refl|]. unfold xmin, xmax, extent.
  eapply Qle_trans; [apply fold_Qmin_le|].
  eapply Qle_trans; [|apply fold_Qmax_le].
  unfold rect_xmin, rect_xmax.
  eapply Qle_trans; [apply Q.le_min_l | apply Q.le_max_l].
Qed.

Lemma viadim_nonneg c : (0 <= viadim_of c)%Q.
Proof.
  unfold viadim_of. eapply Qle_trans; [|apply Q.le_max_l].
  pose proof (xmin_le_xmax c). lra.
Qed.

(** *** Instance counts *)

Lemma Qltb_true x y : Qltb x y = true <-> (x < y)%Q.
Proof.
  unfold Qltb. rewrite negb_true_iff. split.
  - intros H. apply Qnot_le_lt. intros C. apply Qle_bool_iff in C. congruence.
  - intros H. destruct (Qle_bool y x) eqn:E; trivial.
    apply Qle_bool_iff in E. lra.
Qed.

Lemma Qltb_false x y : Qltb x y = false <-> (y <= x)%Q.
Proof.
  unfold Qltb. rewrite negb_false_iff. apply Qle_bool_iff.
Qed.

Lemma num_vias_of_floor d m dim :
  (0 < d + m)%Q -> (0 <= d)%Q -> (d <= dim)%Q ->
  num_vias_of d m dim = Ok (Z.max 1 (Qfloor (dim / (d + m)))).
Proof.
  intros Hp Hd Hdim. unfold num_vias_of.
  destruct (Qeq_bool (d + m) 0) eqn:E.
  - apply Qeq_bool_iff in E. lra.
  - f_equal.
    assert (H0 : 0 <= Qfloor (dim / (d + m))).
    { change 0 with (Qfloor 0). apply Qfloor_resp_le.
      apply Qle_shift_div_l; [exact Hp | lra]. }
    destruct (Qfloor (dim / (d + m)) =? 0) eqn:E0; lia.
Qed.

(** *** The placement loops *)

Lemma ceil_half i : Qceiling (inject_Z i / 2) = (i + 1) / 2.
Proof.
  unfold Qceiling, Qfloor, Qdiv, Qmult, Qopp, Qinv, inject_Z. simpl.
  rewrite Z.mul_1_r.
  pose proof (Z.div_mod (- i) 2). pose proof (Z.mod_pos_bound (- i) 2).
  pose proof (Z.div_mod (i + 1) 2). pose proof (Z.mod_pos_bound (i + 1) 2). lia.
Qed.

Lemma pow_minus_one i : 0 <= i -> (-1) ^ i = if Z.even i then 1 else -1.
Proof.
  intros H. destruct (Z.even i) eqn:E.
  - apply Z.even_spec in E as [k ->]. rewrite Z.pow_mul_r by lia.
    change ((-1) ^ 2) with 1. apply Z.pow_1_l. lia.
  - assert (O : Z.odd i = true) by (rewrite <- Z.negb_even, E; reflexivity).
    apply Z.odd_spec in O as [k ->]. rewrite Z.pow_add_r, Z.pow_mul_r by lia.
    change ((-1) ^ 2) with 1. rewrite Z.pow_1_l by lia. reflexivity.
Qed.

(** Index 0 has multiplier 0, the odd indices 1, 3, 5, ... have -1, -2,
    -3, ... and the even indices 2, 4, 6, ... have 1, 2, 3, ... *)
Lemma spacing_multiplier_spec i :
  0 <= i ->
  (0 <= spacing_multiplier i /\ i = 2 * spacing_multiplier i) \/
  (spacing_multiplier i < 0 /\ i = - 2 * spacing_multiplier i - 1).
Proof.
  intros H. unfold spacing_multiplier. rewrite ceil_half, pow_minus_one by lia.
  destruct (Z.even i) eqn:E.
  - apply Z.even_spec in E as [k ->]. left.
    pose proof (Z.div_mod (2 * k + 1) 2). pose proof (Z.mod_pos_bound (2 * k + 1) 2).
    lia.
  - assert (O : Z.odd i = true) by (rewrite <- Z.negb_even, E; reflexivity).
    apply Z.odd_spec in O as [k ->]. right.
    pose proof (Z.div_mod (2 * k + 1 + 1) 2).
    pose proof (Z.mod_pos_bound (2 * k + 1 + 1) 2). lia.
Qed.

(** Every multiplier between two multipliers of indices below [n] is the
    multiplier of an index below [n]. *)
Lemma spacing_multiplier_between n i j z :
  0 <= i < n -> 0 <= j < n ->
  spacing_multiplier i < z < spacing_multiplier j ->
  exists k, 0 <= k < n /\ spacing_multiplier k = z.
Proof.
  intros Hi Hj Hz.
  pose proof (spacing_multiplier_spec i) as Si.
  pose proof (spacing_multiplier_spec j) as Sj.
  exists (if 0 <=? z then 2 * z else - 2 * z - 1).
  destruct (0 <=? z) eqn:Ez.
  - pose proof (spacing_multiplier_spec (2 * z)). lia.
  - pose proof (spacing_multiplier_spec (- 2 * z - 1)). lia.
Qed.

Lemma fold_place {P : Type} (step : list (Ref P) -> Z -> list (Ref P))
      (f : Z -> Ref P) :
  (forall acc i, step acc i = (acc ++ [f i])%list) ->
  forall l acc, fold_left step l acc = (acc ++ map f l)%list.
Proof.
  intros Hstep. induction l as [|i l IH]; intros acc; cbn [fold_left map].
  - now rewrite app_nil_r.
  - rewrite IH, Hstep, <- app_assoc. reflexivity.
Qed.

Lemma horizontal_vias_eq stack n full :
  fold_left (place movex n full stack) (PyStr.range 0 n) [] = row_of stack n full.
Proof.
  unfold row_of.
  rewrite (fold_place _ (fun i => mkRef stack (axis_offset n full i) 0%Q)); trivial.
  intros acc i. unfold place, axis_offset. destruct (n mod 2 =? 0); reflexivity.
Qed.

Lemma rows_eq (row : RowCell) n full :
  fold_left (place movey n full row) (PyStr.range 0 n) [] = rows_of row n full.
Proof.
  unfold rows_of.
  rewrite (fold_place _ (fun j => mkRef row 0%Q (axis_offset n full j))); trivial.
  intros acc i. unfold place, axis_offset. destruct (n mod 2 =? 0); reflexivity.
Qed.

(** *** The cell of an array *)

Lemma stack_top_layer lo hi c :
  0 <= lo < hi -> stack_shape pdk lo hi c ->
  exists lay, get_glayer pdk (met hi) = Ok lay.
Proof.
  intros Hl (base & body & top & _ & Hbase & _ & Htop).
  destruct (Z.max lo 1 <? hi) eqn:E.
  - destruct Htop as (pad & _ & (? & ? & ? & lay & _ & _ & _ & Hlay & _)). eauto.
  - assert (lo = 0 /\ hi = 1) as [-> ->] by lia. cbn in Hbase.
    destruct Hbase as (? & pad & _ & _ & (? & ? & ? & lay & _ & _ & _ & Hlay & _)).
    exists lay. exact Hlay.
Qed.

Lemma via_array_cell_unfold a b size lo hi m stack :
  __error_check_order_layers pdk a b = Ok (lo, hi) ->
  lo <> hi ->
  compute_via_spacing pdk lo hi = Ok m ->
  via_stack pdk a b = Ok stack ->
  via_array_cell pdk a b size =
    let d := viadim_of stack in
    if Qltb (fst size) d || Qltb (snd size) d then Raise AreaTooSmall
    else
      nx <- num_vias_of d m (fst size) ;;
      ny <- num_vias_of d m (snd size) ;;
      lay <- get_glayer pdk (met hi) ;;
      Ok (mkArrayCell (rows_of (row_of stack nx (m + d)) ny (m + d))
                      [rectangle size lay]).
Proof.
  intros Hr Hne Hm Hs. unfold via_array_cell. rewrite Hr. cbn [bind].
  replace (lo =? hi) with false by lia. rewrite Hm, Hs. cbn [bind existsb].
  rewrite orb_false_r. cbv zeta.
  destruct (_ || _); [reflexivity|].
  destruct (num_vias_of _ _ (fst size)) as [nx|]; [|reflexivity].
  destruct (num_vias_of _ _ (snd size)) as [ny|]; [|reflexivity].
  cbn [bind]. now rewrite horizontal_vias_eq, rows_eq.
Qed.

End ViaArrayFacts.

(** ** Positions along one axis *)

Section AxisFacts.

Variable n : Z.
Variable full : Q.
Hypothesis full_pos : (0 < full)%Q.

Lemma axis_offset_eq i :
  (axis_offset n full i ==
   inject_Z (spacing_multiplier i) * full
   + (if n mod 2 =? 0 then full / 2 else 0))%Q.
Proof.
  unfold axis_offset. destruct (n mod 2 =? 0); ring.
Qed.

Lemma axis_offset_lt i j :
  spacing_multiplier i < spacing_multiplier j ->
  (axis_offset n full i < axis_offset n full j)%Q.
Proof.
  intros H. rewrite Zlt_Qlt in H.
  apply (Qmult_lt_compat_r _ _ full full_pos) in H.
  rewrite !axis_offset_eq. lra.
Qed.

Lemma axis_offset_lt_inv i j :
  (axis_offset n full i < axis_offset n full j)%Q ->
  spacing_multiplier i < spacing_multiplier j.
Proof.
  intros H. destruct (Z_lt_le_dec (spacing_multiplier i) (spacing_multiplier j))
    as [L|L]; trivial.
  rewrite Zle_Qle in L. apply Qmult_le_compat_r with (z := full) in L; [|lra].
  rewrite !axis_offset_eq in H. lra.
Qed.

Lemma axis_offset_step i j :
  spacing_multiplier j = spacing_multiplier i + 1 ->
  (axis_offset n full j - axis_offset n full i == full)%Q.
Proof.
  intros H. rewrite !axis_offset_eq, H, inject_Z_plus.
  change (inject_Z 1) with 1%Q. ring.
Qed.

Lemma axis_offset_opp i j :
  spacing_multiplier j
  = - spacing_multiplier i - (if n mod 2 =? 0 then 1 else 0) ->
  (axis_offset n full j == - axis_offset n full i)%Q.
Proof.
  intros H. rewrite !axis_offset_eq, H.
  destruct (n mod 2 =? 0).
  - unfold Z.sub. rewrite inject_Z_plus, !inject_Z_opp.
    change (inject_Z 1) with 1%Q. field.
  - rewrite Z.sub_0_r, inject_Z_opp. ring.
Qed.

Lemma in_positions p :
  In p (map (axis_offset n full) (PyStr.range 0 n)) <->
  exists i, 0 <= i < n /\ p = axis_offset n full i.
Proof.
  rewrite in_map_iff. split.
  - intros (i & <- & Hi). apply RangeFacts.in_range in Hi. eauto.
  - intros (i & Hi & ->). exists i. split; trivial. now apply RangeFacts.in_range.
Qed.

(** Two adjacent positions are one pitch apart. *)
Lemma neighbours_gap p q :
  neighbours (map (axis_offset n full) (PyStr.range 0 n)) p q ->
  (q - p == full)%Q.
Proof.
  intros (Hp & Hq & Hlt & Hnone).
  apply in_positions in Hp as (i & Hi & ->).
  apply in_positions in Hq as (j & Hj & ->).
  pose proof (axis_offset_lt_inv _ _ Hlt) as Hm.
  destruct (Z.eq_dec (spacing_multiplier j) (spacing_multiplier i + 1)) as [E|E].
  - now apply axis_offset_step.
  - exfalso. apply Hnone.
    destruct (spacing_multiplier_between n i j (spacing_multiplier i + 1))
      as (k & Hk & Ek); [lia .. |].
    exists (axis_offset n full k). split; [apply in_positions; eauto|].
    split; apply axis_offset_lt; lia.
Qed.

(** Every position has its mirror image among the positions. *)
Lemma positions_symmetric p :
  In p (map (axis_offset n full) (PyStr.range 0 n)) ->
  exists q, In q (map (axis_offset n full) (PyStr.range 0 n)) /\ (q == - p)%Q.
Proof.
  intros Hp. apply in_positions in Hp as (i & Hi & ->).
  pose proof (spacing_multiplier_spec i) as Si.
  assert (Hn : n mod 2 = 0 \/ n mod 2 = 1)
    by (pose proof (Z.mod_pos_bound n 2); lia).
  pose proof (Z.div_mod n 2) as Hdiv.
  destruct (n mod 2 =? 0) eqn:En.
  - (* even count: 2k <-> 2k+1 *)
    set (j := if Z.even i then i + 1 else i - 1).
    assert (Hj : 0 <= j < n /\
                 spacing_multiplier j = - spacing_multiplier i - 1).
    { subst j. destruct (Z.even i) eqn:E.
      - apply Z.even_spec in E as [k ->].
        pose proof (spacing_multiplier_spec (2 * k + 1)). lia.
      - assert (O : Z.odd i = true) by (rewrite <- Z.negb_even, E; reflexivity).
        apply Z.odd_spec in O as [k ->].
        pose proof (spacing_multiplier_spec (2 * k + 1 - 1)). lia. }
    destruct Hj as [Hj Ej]. exists (axis_offset n full j).
    split; [apply in_positions; eauto|].
    apply axis_offset_opp. now rewrite En.
  - (* odd count: 0 <-> 0, 2k <-> 2k-1 *)
    set (j := if i =? 0 then 0 else if Z.even i then i - 1 else i + 1).
    assert (Hj : 0 <= j < n /\ spacing_multiplier j = - spacing_multiplier i).
    { subst j. destruct (i =? 0) eqn:E0.
      { apply Z.eqb_eq in E0. subst i. change (spacing_multiplier 0) with 0. lia. }
      destruct (Z.even i) eqn:E.
      - apply Z.even_spec in E as [k ->].
        pose proof (spacing_multiplier_spec (2 * k - 1)). lia.
      - assert (O : Z.odd i = true) by (rewrite <- Z.negb_even, E; reflexivity).
        apply Z.odd_spec in O as [k ->].
        pose proof (spacing_multiplier_spec (2 * k + 1 + 1)). lia. }
    destruct Hj as [Hj Ej]. exists (axis_offset n full j).
    split; [apply in_positions; eauto|].
    apply axis_offset_opp. rewrite En. lia.
Qed.

(** With an even count no position is the centre. *)
Lemma positions_even_off_centre p :
  n mod 2 = 0 ->
  In p (map (axis_offset n full) (PyStr.range 0 n)) -> ~ (p == 0)%Q.
Proof.
  intros En Hp Hz. apply in_positions in Hp as (i & Hi & ->).
  rewrite axis_offset_eq in Hz. replace (n mod 2 =? 0) with true in Hz by lia.
  assert (H : ((inject_Z (2 * spacing_multiplier i + 1)) * full == 0)%Q).
  { rewrite inject_Z_plus, inject_Z_mult. change (inject_Z 2) with 2%Q.
    change (inject_Z 1) with 1%Q.
    transitivity (2 * (inject_Z (spacing_multiplier i) * full + full / 2))%Q;
      [field | rewrite Hz; ring]. }
  apply Qmult_integral in H as [H|H]; [|lra].
  apply (proj1 (inject_Z_injective _ 0)) in H. lia.
Qed.

(** With an odd count the instance of index 0 is at the centre. *)
Lemma positions_odd_centre :
  0 < n -> n mod 2 = 1 ->
  exists rest, map (axis_offset n full) (PyStr.range 0 n)
               = axis_offset n full 0 :: rest /\
               (axis_offset n full 0 == 0)%Q.
Proof.
  intros Hn En.
  rewrite RangeFacts.range_cons by lia. cbn [map]. eexists. split; [reflexivity|].
  rewrite axis_offset_eq. replace (n mod 2 =? 0) with false by lia.
  change (spacing_multiplier 0) with 0. change (inject_Z 0) with 0%Q. ring.
Qed.

Lemma count_range (f : Z -> bool) (c : Z -> Z) :
  c 0 = 0 ->
  (forall k, 0 <= k -> c (k + 1) = c k + (if f k then 1 else 0)) ->
  forall k, 0 <= k -> Z.of_nat (length (filter f (PyStr.range 0 k))) = c k.
Proof.
  intros H0 Hstep. apply natlike_ind; [now rewrite H0|].
  intros k Hk IH. unfold Z.succ.
  rewrite RangeFacts.range_snoc, filter_app, length_app, Hstep by lia.
  cbn [filter]. destruct (f k); cbn [length]; lia.
Qed.

Lemma odd_index_negative i :
  0 <= i -> (spacing_multiplier i < 0 <-> Z.odd i = true).
Proof.
  intros Hi. pose proof (spacing_multiplier_spec i Hi) as S.
  rewrite Z.odd_spec. split.
  - intros H. exists (- spacing_multiplier i - 1). lia.
  - intros [k Hk]. lia.
Qed.

Lemma even_index_positive i :
  0 <= i -> (0 < spacing_multiplier i <-> Z.even i && (0 <? i) = true).
Proof.
  intros Hi. pose proof (spacing_multiplier_spec i Hi) as S.
  rewrite andb_true_iff, Z.even_spec, Z.ltb_lt. split.
  - intros H. split; [exists (spacing_multiplier i)|]; lia.
  - intros [[k Hk] Hp]. lia.
Qed.

Lemma positions_odd_sides :
  0 < n -> n mod 2 = 1 ->
  let positions := map (axis_offset n full) (PyStr.range 0 n) in
  Z.of_nat (length (filter (fun p => Qltb p 0) positions)) = (n - 1) / 2 /\
  Z.of_nat (length (filter (fun p => Qltb 0 p) positions)) = (n - 1) / 2.
Proof.
  intros Hn En positions. subst positions.
  assert (H0 : (axis_offset n full 0 == 0)%Q).
  { destruct (positions_odd_centre Hn En) as (_ & _ & H). exact H. }
  rewrite !filter_map_swap, !length_map.
  pose proof (Z.div_mod n 2) as Dn.
  pose proof (Z.div_mod (n - 1) 2) as Dn1.
  pose proof (Z.mod_pos_bound (n - 1) 2) as Bn1.
  split.
  - rewrite (filter_ext_in _ Z.odd).
    + rewrite (count_range Z.odd (fun k => k / 2)); [| reflexivity | | lia].
      * lia.
      * intros k Hk. rewrite <- Z.negb_even.
        pose proof (Zmod_even k). pose proof (Z.div_mod k 2).
        pose proof (Z.div_mod (k + 1) 2). pose proof (Z.mod_pos_bound (k + 1) 2).
        destruct (Z.even k); cbn [negb]; lia.
    + intros i Hi. apply RangeFacts.in_range in Hi. apply eq_true_iff_eq.
      rewrite Qltb_true, <- odd_index_negative by lia.
      change (spacing_multiplier i < 0)
        with (spacing_multiplier i < spacing_multiplier 0).
      rewrite <- H0. split; [apply axis_offset_lt_inv | apply axis_offset_lt].
  - rewrite (filter_ext_in _ (fun i => Z.even i && (0 <? i))).
    + rewrite (count_range _ (fun k => if k =? 0 then 0 else (k - 1) / 2));
        [| reflexivity | | lia].
      * replace (n =? 0) with false by lia. reflexivity.
      * intros k Hk. replace (k + 1 =? 0) with false by lia.
        replace (k + 1 - 1) with k by lia.
        pose proof (Zmod_even k). pose proof (Z.div_mod k 2).
        pose proof (Z.div_mod (k - 1) 2). pose proof (Z.mod_pos_bound (k - 1) 2).
        destruct (k =? 0) eqn:E0.
        -- apply Z.eqb_eq in E0. subst k. reflexivity.
        -- replace (0 <? k) with true by lia.
           destruct (Z.even k); cbn [andb]; lia.
    + intros i Hi. apply RangeFacts.in_range in Hi. apply eq_true_iff_eq.
      rewrite Qltb_true, <- even_index_positive by lia.
      change (0 < spacing_multiplier i)
        with (spacing_multiplier 0 < spacing_multiplier i).
      rewrite <- H0. split; [apply axis_offset_lt_inv | apply axis_offset_lt].
Qed.

Lemma positions_centred :
  0 < n -> axis_centred (map (axis_offset n full) (PyStr.range 0 n)).
Proof.
  intros Hn. unfold axis_centred.
  rewrite length_map, RangeFacts.range_length.
  replace (Z.of_nat (Z.to_nat (n - 0))) with n by lia.
  pose proof (Zmod_odd n) as Ho. pose proof (Zmod_even n) as He.
  split; [exact positions_symmetric|]. split.
  - intros O. rewrite O in Ho. split.
    + destruct (positions_odd_centre Hn Ho) as (rest & E & H). eauto.
    + exact (positions_odd_sides Hn Ho).
  - intros E. rewrite E in He. intros p. now apply positions_even_off_centre.
Qed.

End AxisFacts.

(** ** The cell of an array, inverted *)

Lemma via_array_cell_inv (pdk : MappedPDK) (a b : string) (w h : Q) (lo hi : Z)
      (m : Q) (stack : Component) (cell : ArrayCell) :
  __error_check_order_layers pdk a b = Ok (lo, hi) ->
  lo <> hi ->
  compute_via_spacing pdk lo hi = Ok m ->
  via_stack pdk a b = Ok stack ->
  (0 < viadim_of stack + m)%Q ->
  via_array_cell pdk a b (w, h) = Ok cell ->
  exists nx ny,
    1 <= nx /\ 1 <= ny /\
    cell_rows cell = rows_of (row_of stack nx (m + viadim_of stack)) ny
                             (m + viadim_of stack).
Proof.
  intros Hr Hne Hm Hs Hp Hc.
  rewrite (via_array_cell_unfold pdk a b (w, h) lo hi m stack Hr Hne Hm Hs) in Hc.
  cbv zeta in Hc. cbn [fst snd] in Hc.
  destruct (Qltb w _ || Qltb h _) eqn:Hb; [discriminate|].
  apply orb_false_iff in Hb as [Hw Hh]. apply Qltb_false in Hw, Hh.
  pose proof (viadim_nonneg stack) as Hd.
  rewrite (num_vias_of_floor _ m w), (num_vias_of_floor _ m h) in Hc by assumption.
  cbn [bind] in Hc. inv_bind Hc. injection Hc as <-.
  eexists _, _. split; [|split; [|reflexivity]]; lia.
Qed.

(** The rectangles of a flattened array are its own rectangles and, for
    every row reference and every stack reference of that row, the
    rectangles of the stack moved by both origins. *)
Lemma in_flatten_array (cell : ArrayCell) (r : Rect) :
  In r (flatten_array cell) <->
  (exists row s r0,
     In row (cell_rows cell) /\ In s (ref_parent row) /\ In r0 (ref_parent s) /\
     r = move_rect (ref_x row) (ref_y row) (move_rect (ref_x s) (ref_y s) r0))
  \/ In r (cell_rects cell).
Proof.
  unfold flatten_array, flatten_row. rewrite in_app_iff, in_flat_map.
  split; (intros [H|H]; [left | right; exact H]).
  - destruct H as (row & Hrow & H). apply in_map_iff in H as (r1 & <- & H).
    apply in_flat_map in H as (s & Hs & H). apply in_map_iff in H as (r0 & <- & H).
    exists row, s, r0. auto.
  - destruct H as (row & s & r0 & Hrow & Hs & H0 & ->).
    exists row. split; [exact Hrow|]. apply in_map. apply in_flat_map.
    exists s. split; [exact Hs|]. now apply in_map.
Qed.

(** ** Statements about the packer *)

(** C10. Routability is validated before the levels are compared: with
    twice the same layer name, when that layer is not routable, both
    [via_stack] and [via_array] raise the invalid-layer error instead of
    returning the empty geometry. *)
Theorem unroutable_same_layer_raises (pdk : MappedPDK) (a : string) (size : Q * Q) :
  is_routable_glayer pdk a = false ->
  via_stack pdk a a = Raise InvalidLayer /\
  via_array pdk a a size = Raise InvalidLayer.
Proof.
  intros H.
  assert (Hr : __error_check_order_layers pdk a a = Raise InvalidLayer).
  { unfold __error_check_order_layers. cbn [forallb]. now rewrite H. }
  unfold via_array, via_array_cell, via_stack. rewrite Hr. split; reflexivity.
Qed.

Lemma unroutable_same_layer_raises_witness :
  via_stack Sample.pdk "nwell" "nwell" = Raise InvalidLayer /\
  via_array Sample.pdk "nwell" "nwell" (4, 2)%Q = Raise InvalidLayer.
Proof.
  apply (unroutable_same_layer_raises Sample.pdk "nwell" (4, 2)%Q). reflexivity.
Defined.

(** C5. The pitch margin of [via_array] is the maximum of the
    minimum-separation rules of the layers a single stack draws on: the
    contact when the low level is 0, each traversed metal and its via, and
    the upper metal.  It is the separation rule of one of these layers, no
    separation rule of these layers exceeds it, and these layers are exactly
    the layers on which the stack of the same two layers has rectangles. *)
Theorem via_array_margin_is_max_separation (pdk : MappedPDK) (a b : string)
        (lo hi : Z) (m : Q) :
  __error_check_order_layers pdk a b = Ok (lo, hi) ->
  compute_via_spacing pdk lo hi = Ok m ->
  (exists seps,
     Forall2 (sep_rule pdk) (stack_layers lo hi) seps /\
     In m seps /\ Forall (fun s => (s <= m)%Q) seps) /\
  (forall stack, lo <> hi -> via_stack pdk a b = Ok stack ->
                 draws_on_exactly pdk (stack_layers lo hi) stack).
Proof.
  intros Hr Hm. pose proof (resolver_ordered _ _ _ _ _ Hr) as Hord. split.
  - apply compute_via_spacing_inv; trivial. lia.
  - intros stack Hne Hs. apply stack_shape_draws; [lia|].
    eapply via_stack_shape; eauto.
Qed.

Lemma via_array_margin_is_max_separation_witness :
  (exists seps,
     Forall2 (sep_rule Sample.pdk)
             ["mcon"; "met1"; "via1"; "met2"; "via2"; "met3"] seps /\
     In (4 # 10) seps /\ Forall (fun s => (s <= 4 # 10)%Q) seps) /\
  (forall stack, 0 <> 3 -> via_stack Sample.pdk "met3" "active_diff" = Ok stack ->
                 draws_on_exactly Sample.pdk
                   ["mcon"; "met1"; "via1"; "met2"; "via2"; "met3"] stack).
Proof.
  apply (via_array_margin_is_max_separation Sample.pdk "met3" "active_diff" 0 3);
    reflexivity.
Defined.

(** *** Counts over floating-point operations *)

Lemma via_array_with_exact (pdk : MappedPDK) (a b : string) (size : Q * Q) :
  via_array_cell_with exact_ops pdk a b size = via_array_cell pdk a b size /\
  via_array_with exact_ops pdk a b size = via_array pdk a b size.
Proof. split; reflexivity. Qed.

Lemma num_vias_with_floor (ops : FloatOps) (d m dim : Q) :
  (forall x y, (0 <= x)%Q -> (0 < y)%Q -> (0 <= fdiv ops x y)%Q) ->
  (0 < fadd ops d m)%Q -> (0 <= dim)%Q ->
  num_vias_with ops d m dim = Ok (Z.max 1 (Qfloor (fdiv ops dim (fadd ops d m)))).
Proof.
  intros Hsign Hp Hdim. unfold num_vias_with.
  destruct (Qeq_bool (fadd ops d m) 0) eqn:E.
  - apply Qeq_bool_iff in E. lra.
  - cbv zeta. f_equal.
    assert (H0 : 0 <= Qfloor (fdiv ops dim (fadd ops d m))).
    { change 0 with (Qfloor 0). apply Qfloor_resp_le. now apply Hsign. }
    destruct (Qfloor (fdiv ops dim (fadd ops d m)) =? 0) eqn:E0; lia.
Qed.

Lemma via_array_cell_with_unfold (ops : FloatOps) (pdk : MappedPDK) (a b : string)
      (size : Q * Q) (lo hi : Z) (m : Q) (stack : Component) :
  __error_check_order_layers pdk a b = Ok (lo, hi) ->
  lo <> hi ->
  compute_via_spacing pdk lo hi = Ok m ->
  via_stack pdk a b = Ok stack ->
  via_array_cell_with ops pdk a b size =
    let d := viadim_of stack in
    if Qltb (fst size) d || Qltb (snd size) d then Raise AreaTooSmall
    else
      nx <- num_vias_with ops d m (fst size) ;;
      ny <- num_vias_with ops d m (snd size) ;;
      lay <- get_glayer pdk (met hi) ;;
      Ok (mkArrayCell (rows_of (row_of stack nx (m + d)) ny (m + d))
                      [rectangle size lay]).
Proof.
  intros Hr Hne Hm Hs. unfold via_array_cell_with. rewrite Hr. cbn [bind].
  replace (lo =? hi) with false by lia. rewrite Hm, Hs. cbn [bind existsb].
  rewrite orb_false_r. cbv zeta.
  destruct (_ || _); [reflexivity|].
  destruct (num_vias_with _ _ _ (fst size)) as [nx|]; [|reflexivity].
  destruct (num_vias_with _ _ _ (snd size)) as [ny|]; [|reflexivity].
  cbn [bind]. now rewrite horizontal_vias_eq, rows_eq.
Qed.

(** What a successful call of the packer has built, whatever the rounding
    of the counts. *)
Lemma via_array_cell_with_structure (ops : FloatOps) (pdk : MappedPDK)
      (a b : string) (w h : Q) (lo hi : Z) (m : Q) (stack : Component)
      (cell : ArrayCell) :
  (forall x y, (0 <= x)%Q -> (0 < y)%Q -> (0 <= fdiv ops x y)%Q) ->
  __error_check_order_layers pdk a b = Ok (lo, hi) ->
  lo <> hi ->
  compute_via_spacing pdk lo hi = Ok m ->
  via_stack pdk a b = Ok stack ->
  (0 < fadd ops (viadim_of stack) m)%Q ->
  via_array_cell_with ops pdk a b (w, h) = Ok cell ->
  let d := viadim_of stack in
  let nx := Z.max 1 (Qfloor (fdiv ops w (fadd ops d m))) in
  let ny := Z.max 1 (Qfloor (fdiv ops h (fadd ops d m))) in
  exists lay,
    (d <= w)%Q /\ (d <= h)%Q /\ get_glayer pdk (met hi) = Ok lay /\
    cell = mkArrayCell (rows_of (row_of stack nx (m + d)) ny (m + d))
                       [rectangle (w, h) lay].
Proof.
  intros Hsign Hr Hne Hm Hs Hp Hc d nx ny.
  rewrite (via_array_cell_with_unfold ops pdk a b (w, h) lo hi m stack Hr Hne Hm Hs) in Hc.
  cbv zeta in Hc. cbn [fst snd] in Hc. fold d in Hc, Hp.
  destruct (Qltb w d || Qltb h d) eqn:Hb; [discriminate|].
  apply orb_false_iff in Hb as [Hw Hh]. apply Qltb_false in Hw, Hh.
  pose proof (viadim_nonneg stack) as Hd. fold d in Hd.
  rewrite (num_vias_with_floor ops d m w Hsign Hp),
          (num_vias_with_floor ops d m h Hsign Hp) in Hc by lra.
  cbn [bind] in Hc. inv_bind Hc. injection Hc as <-.
  exists v. auto.
Qed.

(** C4 as written fails: with a pitch that is not positive the stack fits
    the requested area, no error is raised, and yet no instance is placed:
    the counts are floor(4 / -0.5) = -8 and floor(2 / -0.5) = -4, which the
    [or 1] leaves as they are, and the result holds the plate only. *)
Lemma via_array_negative_pitch_places_nothing :
  (exists stack m,
     via_stack Sample.negative_pdk "met1" "met2" = Ok stack /\
     compute_via_spacing Sample.negative_pdk 1 2 = Ok m /\
     (viadim_of stack <= 4)%Q /\ (viadim_of stack <= 2)%Q /\
     num_vias_of (viadim_of stack) m 4 = Ok (-8) /\
     num_vias_of (viadim_of stack) m 2 = Ok (-4)) /\
  via_array_cell Sample.negative_pdk "met1" "met2" (4, 2)%Q
  = Ok (mkArrayCell [] [rectangle (4, 2)%Q (69, 20)]) /\
  via_array Sample.negative_pdk "met1" "met2" (4, 2)%Q
  = Ok [rectangle (4, 2)%Q (69, 20)].
Proof.
  split; [|split; reflexivity].
  eexists. eexists. split; [reflexivity|]. split; [reflexivity|].
  split; [discriminate|]. split; [discriminate|]. split; reflexivity.
Qed.

(** C4, amended. With d the bounding dimension of the reference stack and
    a margin m: when d exceeds the requested width or height, [via_array]
    raises the area-too-small error and no instance is placed; otherwise,
    when the pitch d + m is positive, the number of instances along each
    axis is floor (axis length / (d + m)), the sum and the quotient being
    those of the machine, raised to at least 1: the array holds a row of
    nx >= 1 stack references, referenced ny >= 1 times.  The only fact
    used of the machine quotient is that it is not negative for a
    non-negative numerator and a positive denominator. *)
Theorem via_array_area_and_counts (ops : FloatOps) (pdk : MappedPDK)
        (a b : string) (w h : Q) (lo hi : Z) (m : Q) (stack : Component) :
  (forall x y, (0 <= x)%Q -> (0 < y)%Q -> (0 <= fdiv ops x y)%Q) ->
  __error_check_order_layers pdk a b = Ok (lo, hi) ->
  lo <> hi ->
  compute_via_spacing pdk lo hi = Ok m ->
  via_stack pdk a b = Ok stack ->
  let d := viadim_of stack in
  ((w < d \/ h < d)%Q ->
   via_array_cell_with ops pdk a b (w, h) = Raise AreaTooSmall /\
   via_array_with ops pdk a b (w, h) = Raise AreaTooSmall) /\
  ((d <= w)%Q -> (d <= h)%Q -> (0 < fadd ops d m)%Q ->
   let nx := Z.max 1 (Qfloor (fdiv ops w (fadd ops d m))) in
   let ny := Z.max 1 (Qfloor (fdiv ops h (fadd ops d m))) in
   exists row rows lay,
     num_vias_with ops d m w = Ok nx /\ num_vias_with ops d m h = Ok ny /\
     row = row_of stack nx (m + d) /\ rows = rows_of row ny (m + d) /\
     via_array_cell_with ops pdk a b (w, h)
     = Ok (mkArrayCell rows [rectangle (w, h) lay]) /\
     Z.of_nat (length row) = nx /\ Z.of_nat (length rows) = ny /\
     1 <= nx /\ 1 <= ny).
Proof.
  intros Hsign Hr Hne Hm Hs d.
  pose proof (via_array_cell_with_unfold ops pdk a b (w, h) lo hi m stack Hr Hne Hm Hs)
    as Hu.
  cbv zeta in Hu. cbn [fst snd] in Hu. fold d in Hu.
  split.
  - intros Hsmall.
    assert (Hb : Qltb w d || Qltb h d = true).
    { apply orb_true_iff. destruct Hsmall; [left | right]; now apply Qltb_true. }
    rewrite Hb in Hu. unfold via_array_with. rewrite Hu. split; reflexivity.
  - intros Hw Hh Hp nx ny.
    assert (Hb : Qltb w d || Qltb h d = false).
    { apply orb_false_iff. split; now apply Qltb_false. }
    rewrite Hb in Hu.
    pose proof (viadim_nonneg stack) as Hd. fold d in Hd.
    assert (Hnx : num_vias_with ops d m w = Ok nx)
      by (apply num_vias_with_floor; trivial; lra).
    assert (Hny : num_vias_with ops d m h = Ok ny)
      by (apply num_vias_with_floor; trivial; lra).
    rewrite Hnx, Hny in Hu. cbn [bind] in Hu.
    pose proof (resolver_ordered _ _ _ _ _ Hr) as Hord.
    destruct (stack_top_layer pdk lo hi stack) as [lay Hlay];
      [lia | eapply via_stack_shape; eauto |].
    rewrite Hlay in Hu. cbn [bind] in Hu.
    exists (row_of stack nx (m + d)), (rows_of (row_of stack nx (m + d)) ny (m + d)), lay.
    split; [exact Hnx|]. split; [exact Hny|].
    split; [reflexivity|]. split; [reflexivity|]. split; [exact Hu|].
    unfold row_of, rows_of. rewrite !length_map, !RangeFacts.range_length.
    subst nx ny. lia.
Qed.

Lemma via_array_area_and_counts_witness :
  (exists row rows lay,
     via_array_cell_with exact_ops Sample.pdk "met1" "met2" (4, 2)%Q
       = Ok (mkArrayCell rows [rectangle (4, 2)%Q lay]) /\
     Forall (fun r => ref_parent r = row) rows /\
     Z.of_nat (length row) = 5 /\ Z.of_nat (length rows) = 2) /\
  via_array_with exact_ops Sample.pdk "met1" "met2" (4, 4 # 10)%Q
  = Raise AreaTooSmall.
Proof.
  assert (Hsign : forall x y : Q, (0 <= x)%Q -> (0 < y)%Q -> (0 <= fdiv exact_ops x y)%Q).
  { intros x y Hx Hy. cbn. apply Qle_shift_div_l; [exact Hy | lra]. }
  destruct (via_array_area_and_counts exact_ops Sample.pdk "met1" "met2" 4 2 1 2
              (3 # 10) Sample.stack12 Hsign)
    as [_ Hfit]; [reflexivity | lia | reflexivity | vm_compute; reflexivity |].
  destruct (via_array_area_and_counts exact_ops Sample.pdk "met1" "met2" 4 (4 # 10) 1 2
              (3 # 10) Sample.stack12 Hsign)
    as [Hsmall _]; [reflexivity | lia | reflexivity | vm_compute; reflexivity |].
  split.
  - destruct Hfit as (row & rows & lay & _ & _ & Hrow & Hrows & Hcell & Hnx & Hny & _);
      [apply Qle_bool_iff; reflexivity .. | reflexivity |].
    exists row, rows, lay. split; [exact Hcell|]. split.
    + subst rows. unfold rows_of. apply Forall_map, Forall_forall. reflexivity.
    + split; [exact Hnx | exact Hny].
  - apply Hsmall. right. reflexivity.
Defined.

(** C7 as written fails: with three instances along x, the instance of
    index (3 - 1) / 2 = 1 is one pitch to the left of the centreline. *)
Lemma via_array_index_one_of_three_off_centre :
  exists cell row rest,
    via_array_cell Sample.pdk "met1" "met2" (25 # 10, 1)%Q = Ok cell /\
    cell_rows cell = row :: rest /\
    length (ref_parent row) = 3%nat /\
    (ref_x (nth 1 (ref_parent row) (new_ref [])) == - (8 # 10))%Q /\
    ~ (ref_x (nth 1 (ref_parent row) (new_ref [])) == 0)%Q.
Proof.
  eexists. eexists. eexists. split; [vm_compute; reflexivity|].
  split; [reflexivity|]. split; [reflexivity|].
  split; [reflexivity | discriminate].
Qed.

(** C7, amended. Symmetry: along each axis of a [via_array] result the
    instance positions are symmetric about the centreline; with an odd
    instance count n the instance with index 0 sits exactly at the
    centreline, with (n - 1) / 2 instances on either side of it; with an
    even count no instance sits at the centreline. *)
Theorem via_array_centred (pdk : MappedPDK) (a b : string) (w h : Q) (lo hi : Z)
        (m : Q) (stack : Component) (cell : ArrayCell) :
  __error_check_order_layers pdk a b = Ok (lo, hi) ->
  lo <> hi ->
  compute_via_spacing pdk lo hi = Ok m ->
  via_stack pdk a b = Ok stack ->
  (0 < viadim_of stack + m)%Q ->
  via_array_cell pdk a b (w, h) = Ok cell ->
  axis_centred (map ref_y (cell_rows cell)) /\
  Forall (fun row => axis_centred (map ref_x (ref_parent row))) (cell_rows cell).
Proof.
  intros Hr Hne Hm Hs Hp Hc.
  destruct (via_array_cell_inv pdk a b w h lo hi m stack cell Hr Hne Hm Hs Hp Hc)
    as (nx & ny & Hnx & Hny & Hrows).
  assert (Hfull : (0 < m + viadim_of stack)%Q) by lra.
  rewrite Hrows. split.
  - unfold rows_of. rewrite map_map. cbn [ref_y].
    apply positions_centred; [exact Hfull | lia].
  - unfold rows_of. apply Forall_map, Forall_forall. intros j _. cbn [ref_parent].
    unfold row_of. rewrite map_map. cbn [ref_x].
    apply positions_centred; [exact Hfull | lia].
Qed.

Lemma via_array_centred_witness :
  axis_centred (map ref_y (cell_rows Sample.array12)) /\
  Forall (fun row => axis_centred (map ref_x (ref_parent row)))
         (cell_rows Sample.array12).
Proof.
  apply (via_array_centred Sample.pdk "met1" "met2" 4 2 1 2 (3 # 10)
           Sample.stack12 Sample.array12);
    [reflexivity | lia | reflexivity | vm_compute; reflexivity | reflexivity
    | vm_compute; reflexivity].
Defined.

(** The two rows of that array are adjacent: the statement on neighbours
    is not vacuous. *)
Example sample_rows_are_neighbours :
  neighbours [(- (4 # 10))%Q; (4 # 10)%Q] (- (4 # 10))%Q (4 # 10)%Q.
Proof.
  split; [left; reflexivity|]. split; [right; left; reflexivity|].
  split; [reflexivity|].
  intros (r & [<- | [<- | []]] & H1 & H2); [revert H1 | revert H2]; discriminate.
Qed.

(** ** The level of a layer name *)

Lemma last_trailing_integer s : forall acc,
  s <> EmptyString ->
  match PyStr.last s with
  | Some c => PyStr.int_of_char c
  | None => Raise BadLevel
  end
  = match trailing_integer_from acc s with
    | Some n => Ok (n mod 10)
    | None => Raise BadLevel
    end.
Proof.
  induction s as [|c rest IH]; intros acc Hne; [congruence|].
  destruct rest as [|c' rest'].
  - cbn [PyStr.last trailing_integer_from].
    destruct (PyStr.int_of_char c) as [d|e] eqn:E.
    + apply int_of_char_range in E. f_equal.
      rewrite Z.add_comm, Z.mul_comm, Z.mod_add by lia. symmetry. apply Z.mod_small. lia.
    + unfold PyStr.int_of_char in E. destruct (_ && _); congruence.
  - change (PyStr.last (String c (String c' rest'))) with (PyStr.last (String c' rest')).
    cbn [trailing_integer_from]. apply IH. discriminate.
Qed.

(** C8 as written fails: the level of a metal name is its last digit, not
    its trailing integer; "met12" is routable and resolves to level 2. *)
Lemma met12_level_is_not_trailing_integer :
  is_routable_glayer Sample.pdk "met12" = true /\
  trailing_integer "met12" = Some 12 /\
  glayer_level "met12" = Ok 2 /\
  __error_check_order_layers Sample.pdk "met12" "met12" = Ok (2, 2).
Proof. repeat split. Qed.

(** C8, amended. The resolver assigns level 0 to every layer whose name
    does not contain "met"; to a name that contains "met" it assigns the
    value of its last character read as a decimal digit, that is the
    trailing integer of the name modulo 10 (the trailing integer itself
    when it is below 10), and fails when the name does not end in a
    digit. *)
Theorem glayer_level_last_digit (glayer : string) :
  glayer_level glayer =
    if PyStr.contains "met" glayer then
      match trailing_integer glayer with
      | Some n => Ok (n mod 10)
      | None => Raise BadLevel
      end
    else Ok 0.
Proof.
  unfold glayer_level, trailing_integer.
  destruct (PyStr.contains "met" glayer) eqn:E; [|reflexivity].
  apply last_trailing_integer. intros ->. discriminate.
Qed.


(** * Further properties of the resolver *)

Lemma glayer_level_raises g e : glayer_level g = Raise e -> e = BadLevel.
Proof.
  unfold glayer_level. destruct (PyStr.contains "met" g); [|discriminate].
  destruct (PyStr.last g) as [c|]; [|congruence].
  unfold PyStr.int_of_char. destruct (_ && _); congruence.
Qed.

Lemma resolver_success pdk a b la lb :
  is_routable_glayer pdk a = true -> is_routable_glayer pdk b = true ->
  glayer_level a = Ok la -> glayer_level b = Ok lb ->
  __error_check_order_layers pdk a b = Ok (Z.min la lb, Z.max la lb).
Proof.
  intros Ha Hb Hla Hlb. unfold __error_check_order_layers. cbn [forallb].
  rewrite Ha, Hb, Hla, Hlb. cbn.
  destruct (la >? lb) eqn:C; f_equal; f_equal; lia.
Qed.

Lemma resolver_unroutable pdk a b :
  is_routable_glayer pdk a = false \/ is_routable_glayer pdk b = false ->
  __error_check_order_layers pdk a b = Raise InvalidLayer.
Proof.
  intros H. unfold __error_check_order_layers. cbn [forallb].
  destruct H as [-> | ->]; [reflexivity|].
  destruct (is_routable_glayer pdk a); reflexivity.
Qed.

Lemma resolver_bad_level pdk a b :
  is_routable_glayer pdk a = true -> is_routable_glayer pdk b = true ->
  glayer_level a = Raise BadLevel \/ glayer_level b = Raise BadLevel ->
  __error_check_order_layers pdk a b = Raise BadLevel.
Proof.
  intros Ha Hb H. unfold __error_check_order_layers. cbn [forallb].
  rewrite Ha, Hb. cbn [andb negb].
  destruct (glayer_level a) as [la|ea] eqn:Ea.
  - destruct H as [H | ->]; [discriminate | reflexivity].
  - apply glayer_level_raises in Ea. subst ea. reflexivity.
Qed.

Lemma via_array_resolver_raises pdk a b size e :
  __error_check_order_layers pdk a b = Raise e ->
  via_stack pdk a b = Raise e /\ via_array pdk a b size = Raise e.
Proof.
  intros H. unfold via_array, via_array_cell, via_stack. rewrite H. split; reflexivity.
Qed.

(** X1. The resolver succeeds exactly when both layers are routable and
    both levels can be read; it then returns the smaller level first and
    the larger second, and both lie between 0 and 9. *)
Theorem resolver_returns_sorted_levels (pdk : MappedPDK) (a b : string) (lo hi : Z) :
  __error_check_order_layers pdk a b = Ok (lo, hi) <->
  is_routable_glayer pdk a = true /\ is_routable_glayer pdk b = true /\
  exists la lb, glayer_level a = Ok la /\ glayer_level b = Ok lb /\
                lo = Z.min la lb /\ hi = Z.max la lb /\ 0 <= lo <= hi /\ hi <= 9.
Proof.
  split.
  - intros H. pose proof (resolver_ordered _ _ _ _ _ H) as Hord.
    apply resolver_inv in H as (Ha & Hb & la & lb & Hla & Hlb & -> & ->).
    split; [exact Ha|]. split; [exact Hb|]. exists la, lb. repeat split; trivial; lia.
  - intros (Ha & Hb & la & lb & Hla & Hlb & -> & -> & _).
    now apply resolver_success.
Qed.

(** X2. When either of the two layers is not routable, the resolver,
    [via_stack] and [via_array] all raise the invalid-layer error, whatever
    the other name is (even one whose level cannot be read) and whatever
    the rules and the requested size are. *)
Theorem unroutable_layer_raises (pdk : MappedPDK) (a b : string) (size : Q * Q) :
  is_routable_glayer pdk a = false \/ is_routable_glayer pdk b = false ->
  __error_check_order_layers pdk a b = Raise InvalidLayer /\
  via_stack pdk a b = Raise InvalidLayer /\
  via_array pdk a b size = Raise InvalidLayer.
Proof.
  intros H. apply resolver_unroutable in H. split; [exact H|].
  now apply via_array_resolver_raises.
Qed.

Lemma unroutable_layer_raises_witness :
  __error_check_order_layers Sample.pdk "met1" "nwell" = Raise InvalidLayer /\
  via_stack Sample.pdk "met1" "nwell" = Raise InvalidLayer /\
  via_array Sample.pdk "met1" "nwell" (4, 2)%Q = Raise InvalidLayer.
Proof.
  apply (unroutable_layer_raises Sample.pdk "met1" "nwell" (4, 2)%Q).
  right. reflexivity.
Defined.

(** X3. A routable pair in which one name contains "met" but does not end
    in a decimal digit makes [via_stack] and [via_array] fail with the
    error of [int()], before any rule is looked up. *)
Theorem malformed_metal_name_raises (pdk : MappedPDK) (a b : string) (size : Q * Q) :
  is_routable_glayer pdk a = true -> is_routable_glayer pdk b = true ->
  (PyStr.contains "met" a = true /\ trailing_integer a = None) \/
  (PyStr.contains "met" b = true /\ trailing_integer b = None) ->
  via_stack pdk a b = Raise BadLevel /\ via_array pdk a b size = Raise BadLevel.
Proof.
  intros Ha Hb H. apply via_array_resolver_raises. apply resolver_bad_level; trivial.
  assert (Hbad : forall g, PyStr.contains "met" g = true -> trailing_integer g = None ->
                           glayer_level g = Raise BadLevel).
  { intros g Hc Ht. unfold glayer_level. rewrite Hc.
    destruct g as [|c g]; [reflexivity|].
    rewrite (last_trailing_integer (String c g) None) by discriminate.
    unfold trailing_integer in Ht. now rewrite Ht. }
  destruct H as [[Hc Ht] | [Hc Ht]]; [left | right]; now apply Hbad.
Qed.

Lemma malformed_metal_name_raises_witness :
  via_stack Sample.pdk "met1" "metal" = Raise BadLevel /\
  via_array Sample.pdk "met1" "metal" (4, 2)%Q = Raise BadLevel.
Proof.
  apply (malformed_metal_name_raises Sample.pdk "met1" "metal" (4, 2)%Q);
    [reflexivity | reflexivity | right; split; reflexivity].
Defined.

(** X4. Two routable layers that resolve to the same level, whether or not
    they are the same layer (two base layers such as active and poly both
    have level 0), give the empty geometry in [via_stack] and in
    [via_array]; no rule is consulted and the requested size is not
    checked. *)
Theorem equal_levels_give_empty (pdk : MappedPDK) (a b : string) (l : Z)
        (size : Q * Q) :
  is_routable_glayer pdk a = true -> is_routable_glayer pdk b = true ->
  glayer_level a = Ok l -> glayer_level b = Ok l ->
  via_stack pdk a b = Ok [] /\ via_array pdk a b size = Ok [].
Proof.
  intros Ha Hb Hla Hlb.
  pose proof (resolver_success pdk a b l l Ha Hb Hla Hlb) as Hr.
  rewrite Z.min_id, Z.max_id in Hr. split.
  - now apply via_stack_same_level with (l := l).
  - unfold via_array, via_array_cell. rewrite Hr. cbn [bind].
    rewrite Z.eqb_refl. reflexivity.
Qed.

Lemma equal_levels_give_empty_witness :
  via_stack Sample.pdk "active_diff" "poly" = Ok [] /\
  via_array Sample.pdk "active_diff" "poly" (0, 0)%Q = Ok [].
Proof.
  apply (equal_levels_give_empty Sample.pdk "active_diff" "poly" 0 (0, 0)%Q);
    reflexivity.
Defined.

(** X5. Round trip between the names the generator builds and the levels
    the resolver reads: for a level l from 0 to 9 the name "met" + str(l)
    has level l, and the name "via" + str(l) has level 0; hence two
    routable names built from levels lo <= hi resolve to (lo, hi). *)
Theorem built_names_resolve_to_their_levels (pdk : MappedPDK) (lo hi : Z) :
  0 <= lo <= hi -> hi <= 9 ->
  glayer_level (met lo) = Ok lo /\ glayer_level (via lo) = Ok 0 /\
  (is_routable_glayer pdk (met lo) = true ->
   is_routable_glayer pdk (met hi) = true ->
   __error_check_order_layers pdk (met hi) (met lo) = Ok (lo, hi)).
Proof.
  intros Hlo Hhi.
  assert (Hmet : forall l, 0 <= l <= 9 -> glayer_level (met l) = Ok l /\
                                          glayer_level (via l) = Ok 0).
  { intros l Hl.
    assert (C : l = 0 \/ l = 1 \/ l = 2 \/ l = 3 \/ l = 4 \/ l = 5 \/ l = 6 \/
                l = 7 \/ l = 8 \/ l = 9) by lia.
    repeat (destruct C as [-> | C]; [split; reflexivity|]). subst l. split; reflexivity. }
  split; [apply Hmet; lia|]. split; [apply Hmet; lia|].
  intros Ra Rb.
  rewrite (resolver_success pdk (met hi) (met lo) hi lo Rb Ra);
    [f_equal; f_equal; lia | apply Hmet; lia | apply Hmet; lia].
Qed.

Lemma built_names_resolve_to_their_levels_witness :
  glayer_level (met 2) = Ok 2 /\ glayer_level (via 2) = Ok 0 /\
  (is_routable_glayer Sample.pdk (met 2) = true ->
   is_routable_glayer Sample.pdk (met 5) = true ->
   __error_check_order_layers Sample.pdk (met 5) (met 2) = Ok (2, 5)).
Proof.
  apply (built_names_resolve_to_their_levels Sample.pdk 2 5); lia.
Defined.

Lemma resolver_returns_sorted_levels_witness :
  __error_check_order_layers Sample.pdk "met3" "poly" = Ok (0, 3).
Proof.
  apply (resolver_returns_sorted_levels Sample.pdk "met3" "poly" 0 3).
  split; [reflexivity|]. split; [reflexivity|].
  exists 3, 0. repeat split; try reflexivity; lia.
Defined.

(** * Which errors can be raised *)

Lemma bind_Raise {A B : Type} (m : result A) (k : A -> result B) (e : exn) :
  bind m k = Raise e -> m = Raise e \/ exists a, m = Ok a /\ k a = Raise e.
Proof.
  destruct m as [a|e']; cbn; intros H; [right; eauto | left; congruence].
Qed.

Section RaiseFacts.

Variable pdk : MappedPDK.

Lemma get_glayer_raises g e : get_glayer pdk g = Raise e -> e = MissingRule.
Proof. unfold get_glayer. destruct (glayers pdk g); congruence. Qed.

Lemma has_required_glayers_raises l e :
  has_required_glayers pdk l = Raise e -> e = MissingRule.
Proof. unfold has_required_glayers. destruct (forallb _ _); congruence. Qed.

Lemma rule1_raises g k e : rule1 pdk g k = Raise e -> e = MissingRule.
Proof.
  unfold rule1, get_grule. destruct (grules pdk g None) as [d|]; cbn; [|congruence].
  destruct (grule_lookup d k); congruence.
Qed.

Lemma rule2_raises g g' k e : rule2 pdk g g' k = Raise e -> e = MissingRule.
Proof.
  unfold rule2, get_grule. destruct (grules pdk g (Some g')) as [d|]; cbn; [|congruence].
  destruct (grule_lookup d k); congruence.
Qed.

(** Splits a failing sequence of rule-source calls into the call that
    failed, and closes the case with the lemma of that call. *)
Ltac rule_source_raises H :=
  repeat (match type of H with
          | bind _ _ = Raise _ =>
              apply bind_Raise in H; destruct H as [H | (? & _ & H)]
          end);
  first [ apply rule1_raises in H | apply rule2_raises in H
        | apply get_glayer_raises in H | apply has_required_glayers_raises in H
        | discriminate H ];
  exact H.

Lemma lay_mcon_raises vs e : lay_mcon pdk vs = Raise e -> e = MissingRule.
Proof. unfold lay_mcon. intros H. rule_source_raises H. Qed.

Lemma lay_level_raises vs l e : lay_level pdk vs l = Raise e -> e = MissingRule.
Proof. unfold lay_level. intros H. rule_source_raises H. Qed.

Lemma lay_levels_raises levels : forall vs lv e,
  lay_levels pdk levels vs lv = Raise e -> e = MissingRule.
Proof.
  induction levels as [|l ls IH]; intros vs lv e H; [discriminate|].
  cbn [lay_levels] in H. apply bind_Raise in H as [H | (vs' & _ & H)].
  - now apply lay_level_raises in H.
  - now apply IH in H.
Qed.

(** Between two metal levels l1 < l2 the loop runs at least once, so the
    loop variable is bound when the upper pad is sized. *)
Lemma lay_metals_raises vs l1 l2 e :
  1 <= l1 < l2 -> lay_metals pdk vs l1 l2 = Raise e -> e = MissingRule.
Proof.
  intros Hl. unfold lay_metals.
  replace (l1 =? 0) with false by lia. replace (l2 =? 0) with false by lia.
  cbn [negb andb]. intros H.
  apply bind_Raise in H as [H | ([vs1 lv] & E & H)].
  - now apply lay_levels_raises in H.
  - apply lay_levels_inv in E as (_ & _ & _ & ->).
    rewrite last_range in H by lia. cbn [bind] in H. rule_source_raises H.
Qed.

Lemma resolver_raises a b e :
  __error_check_order_layers pdk a b = Raise e ->
  (e = InvalidLayer /\
   (is_routable_glayer pdk a = false \/ is_routable_glayer pdk b = false)) \/
  (e = BadLevel /\
   is_routable_glayer pdk a = true /\ is_routable_glayer pdk b = true /\
   (glayer_level a = Raise BadLevel \/ glayer_level b = Raise BadLevel)).
Proof.
  unfold __error_check_order_layers. cbn [forallb].
  destruct (is_routable_glayer pdk a) eqn:Ha; cbn [andb negb];
    [|intros [= <-]; left; auto].
  destruct (is_routable_glayer pdk b) eqn:Hb; cbn [andb negb];
    [|intros [= <-]; left; auto].
  intros H. right.
  destruct (glayer_level a) as [la|ea] eqn:Ea; cbn [bind] in H.
  - destruct (glayer_level b) as [lb|eb] eqn:Eb; cbn [bind] in H.
    + destruct (la >? lb); discriminate.
    + injection H as <-. pose proof (glayer_level_raises _ _ Eb). subst eb. auto.
  - injection H as <-. pose proof (glayer_level_raises _ _ Ea). subst ea. auto.
Qed.

Lemma via_stack_raises a b e :
  via_stack pdk a b = Raise e ->
  __error_check_order_layers pdk a b = Raise e \/
  (e = MissingRule /\
   exists lo hi, __error_check_order_layers pdk a b = Ok (lo, hi) /\ lo < hi).
Proof.
  unfold via_stack. intros H.
  destruct (__error_check_order_layers pdk a b) as [[lo hi]|e'] eqn:Hr;
    cbn [bind] in H; [right | left; congruence].
  pose proof (resolver_ordered _ _ _ _ _ Hr) as Hord.
  destruct (lo =? hi) eqn:E; [discriminate|].
  assert (e = MissingRule); [|split; [assumption | exists lo, hi; split; [reflexivity | lia]]].
  destruct (lo =? 0) eqn:E0.
  - apply bind_Raise in H as [H | (vs & _ & H)]; [now apply lay_mcon_raises in H|].
    destruct (lo + 1 =? hi) eqn:E1; [discriminate|].
    apply lay_metals_raises in H; [exact H | lia].
  - apply lay_metals_raises in H; [exact H | lia].
Qed.

Lemma spacing_levels_raises levels : forall vs e,
  spacing_levels pdk levels vs = Raise e -> e = MissingRule.
Proof.
  induction levels as [|l ls IH]; intros vs e H; [discriminate|].
  cbn [spacing_levels] in H. apply bind_Raise in H as [H | (vs' & _ & H)].
  - unfold spacing_level in H. rule_source_raises H.
  - now apply IH in H.
Qed.

Lemma py_max_snoc l x : exists m, py_max (l ++ [x])%list = Ok m.
Proof. destruct l; cbn; eauto. Qed.

(** The list of separations always ends with the rule of the upper metal:
    [max] is never applied to an empty list. *)
Lemma compute_via_spacing_raises lo hi e :
  compute_via_spacing pdk lo hi = Raise e -> e = MissingRule.
Proof.
  unfold compute_via_spacing. intros H.
  apply bind_Raise in H as [H | (vs & _ & H)].
  - destruct (negb (lo =? 0)); [discriminate|]. rule_source_raises H.
  - apply bind_Raise in H as [H | (vs' & _ & H)]; [now apply spacing_levels_raises in H|].
    apply bind_Raise in H as [H | (s & _ & H)]; [now apply rule1_raises in H|].
    destruct (py_max_snoc vs' s) as [m Hm]. congruence.
Qed.

Lemma num_vias_of_raises d m dim e :
  num_vias_of d m dim = Raise e -> e = ZeroDivision /\ (d + m == 0)%Q.
Proof.
  unfold num_vias_of. destruct (Qeq_bool (d + m) 0) eqn:E; [|discriminate].
  intros [= <-]. split; [reflexivity | now apply Qeq_bool_iff].
Qed.

End RaiseFacts.

(** X6. [via_stack] fails in three ways only: with the invalid-layer error
    exactly when a layer is not routable, with the error of [int()] when
    both are routable and a level cannot be read, and otherwise with a
    failure of the rule source, which needs distinct levels.  In
    particular the loop variable read after the loop (line 80) is always
    bound: no NameError. *)
Theorem via_stack_error_kinds (pdk : MappedPDK) (a b : string) (e : exn) :
  via_stack pdk a b = Raise e ->
  (e = InvalidLayer /\
   (is_routable_glayer pdk a = false \/ is_routable_glayer pdk b = false)) \/
  (e = BadLevel /\
   is_routable_glayer pdk a = true /\ is_routable_glayer pdk b = true /\
   (glayer_level a = Raise BadLevel \/ glayer_level b = Raise BadLevel)) \/
  (e = MissingRule /\
   exists lo hi, __error_check_order_layers pdk a b = Ok (lo, hi) /\ lo < hi).
Proof.
  intros H. apply via_stack_raises in H as [H | H].
  - apply resolver_raises in H as [H | H]; auto.
  - auto.
Qed.

Lemma via_stack_error_kinds_witness :
  (MissingRule = InvalidLayer /\
   (is_routable_glayer Sample.pdk "met1" = false \/
    is_routable_glayer Sample.pdk "met4" = false)) \/
  (MissingRule = BadLevel /\
   is_routable_glayer Sample.pdk "met1" = true /\
   is_routable_glayer Sample.pdk "met4" = true /\
   (glayer_level "met1" = Raise BadLevel \/ glayer_level "met4" = Raise BadLevel)) \/
  (MissingRule = MissingRule /\
   exists lo hi, __error_check_order_layers Sample.pdk "met1" "met4" = Ok (lo, hi) /\
                 lo < hi).
Proof.
  apply (via_stack_error_kinds Sample.pdk "met1" "met4" MissingRule). reflexivity.
Defined.

(** X7. [via_array] fails in five ways only: as the resolver does, with a
    failure of the rule source, with the area-too-small error, which
    happens only when the stack was built and its bounding dimension
    exceeds the requested width or height, or with a division by zero,
    which happens only when the stack fits and the pitch d + margin is
    zero.  [max] is never applied to an empty list and no NameError is
    raised. *)
Theorem via_array_error_kinds (pdk : MappedPDK) (a b : string) (w h : Q) (e : exn) :
  via_array pdk a b (w, h) = Raise e ->
  __error_check_order_layers pdk a b = Raise e \/
  e = MissingRule \/
  (e = AreaTooSmall /\
   exists stack, via_stack pdk a b = Ok stack /\
                 (w < viadim_of stack \/ h < viadim_of stack)%Q) \/
  (e = ZeroDivision /\
   exists lo hi m stack,
     __error_check_order_layers pdk a b = Ok (lo, hi) /\
     compute_via_spacing pdk lo hi = Ok m /\ via_stack pdk a b = Ok stack /\
     (viadim_of stack <= w)%Q /\ (viadim_of stack <= h)%Q /\
     (viadim_of stack + m == 0)%Q).
Proof.
  unfold via_array. intros H.
  apply bind_Raise in H as [H | (cell & _ & H)]; [|discriminate].
  destruct (__error_check_order_layers pdk a b) as [[lo hi]|e'] eqn:Hr.
  2:{ left. unfold via_array_cell in H. rewrite Hr in H. cbn [bind] in H. congruence. }
  right.
  destruct (lo =? hi) eqn:E.
  { unfold via_array_cell in H. rewrite Hr in H. cbn [bind] in H.
    rewrite E in H. discriminate. }
  destruct (compute_via_spacing pdk lo hi) as [m|e'] eqn:Hm.
  2:{ left. unfold via_array_cell in H. rewrite Hr in H. cbn [bind] in H.
      rewrite E, Hm in H. injection H as <-.
      now apply compute_via_spacing_raises in Hm. }
  destruct (via_stack pdk a b) as [stack|e'] eqn:Hs.
  2:{ left. unfold via_array_cell in H. rewrite Hr in H. cbn [bind] in H.
      rewrite E, Hm in H. cbn [bind] in H. rewrite Hs in H. injection H as <-.
      apply via_stack_raises in Hs as [Hs | [Hs _]]; [congruence | exact Hs]. }
  rewrite (via_array_cell_unfold pdk a b (w, h) lo hi m stack Hr) in H;
    [| lia | exact Hm | exact Hs].
  cbv zeta in H. cbn [fst snd] in H.
  destruct (Qltb w _ || Qltb h _) eqn:Hb.
  - injection H as <-. right. left. split; [reflexivity|]. exists stack.
    split; [reflexivity|]. apply orb_true_iff in Hb as [Hb | Hb];
      [left | right]; now apply Qltb_true.
  - apply orb_false_iff in Hb as [Hw Hh]. apply Qltb_false in Hw, Hh.
    assert (Hz : forall dim e0, num_vias_of (viadim_of stack) m dim = Raise e0 ->
                 e0 = ZeroDivision /\ (viadim_of stack + m == 0)%Q)
      by (intros; eapply num_vias_of_raises; eauto).
    apply bind_Raise in H as [H | (nx & _ & H)].
    { apply Hz in H as [-> Hz0]. right. right. split; [reflexivity|].
      exists lo, hi, m, stack. auto 10. }
    apply bind_Raise in H as [H | (ny & _ & H)].
    { apply Hz in H as [-> Hz0]. right. right. split; [reflexivity|].
      exists lo, hi, m, stack. auto 10. }
    apply bind_Raise in H as [H | (lay & _ & H)]; [|discriminate].
    left. now apply get_glayer_raises in H.
Qed.

Lemma via_array_error_kinds_witness :
  __error_check_order_layers Sample.pdk "met1" "met2" = Raise AreaTooSmall \/
  AreaTooSmall = MissingRule \/
  (AreaTooSmall = AreaTooSmall /\
   exists stack, via_stack Sample.pdk "met1" "met2" = Ok stack /\
                 (4 < viadim_of stack \/ 4 # 10 < viadim_of stack)%Q) \/
  (AreaTooSmall = ZeroDivision /\
   exists lo hi m stack,
     __error_check_order_layers Sample.pdk "met1" "met2" = Ok (lo, hi) /\
     compute_via_spacing Sample.pdk lo hi = Ok m /\
     via_stack Sample.pdk "met1" "met2" = Ok stack /\
     (viadim_of stack <= 4)%Q /\ (viadim_of stack <= 4 # 10)%Q /\
     (viadim_of stack + m == 0)%Q).
Proof.
  apply (via_array_error_kinds Sample.pdk "met1" "met2" 4 (4 # 10) AreaTooSmall).
  vm_compute. reflexivity.
Defined.

(** * Further properties of the placement *)

Lemma spacing_multiplier_injective i j :
  0 <= i -> 0 <= j -> spacing_multiplier i = spacing_multiplier j -> i = j.
Proof.
  intros Hi Hj H.
  pose proof (spacing_multiplier_spec i Hi). pose proof (spacing_multiplier_spec j Hj).
  lia.
Qed.

Lemma spacing_multiplier_bounds n i :
  0 <= i < n ->
  - (n - 1) <= 2 * spacing_multiplier i + (if n mod 2 =? 0 then 1 else 0) <= n - 1.
Proof.
  intros Hi. pose proof (spacing_multiplier_spec i) as S.
  pose proof (Z.div_mod n 2). pose proof (Z.mod_pos_bound n 2).
  destruct (n mod 2 =? 0) eqn:E; lia.
Qed.

(** X8. The signed multipliers of the indices 0 .. n-1 are exactly the
    integers from -(n / 2) to (n - 1) / 2 (integer division), and distinct
    indices have distinct multipliers: the placement loop fills a
    contiguous run of grid slots around the centre, each slot once. *)
Theorem spacing_multiplier_fills_slots (n z : Z) :
  ((exists i, 0 <= i < n /\ spacing_multiplier i = z) <->
   - (n / 2) <= z <= (n - 1) / 2) /\
  (forall i j, 0 <= i -> 0 <= j ->
               spacing_multiplier i = spacing_multiplier j -> i = j).
Proof.
  split; [|exact spacing_multiplier_injective].
  pose proof (Z.div_mod n 2). pose proof (Z.mod_pos_bound n 2).
  pose proof (Z.div_mod (n - 1) 2). pose proof (Z.mod_pos_bound (n - 1) 2).
  split.
  - intros (i & Hi & <-). pose proof (spacing_multiplier_spec i). lia.
  - intros Hz. exists (if 0 <=? z then 2 * z else - 2 * z - 1).
    destruct (0 <=? z) eqn:Ez.
    + pose proof (spacing_multiplier_spec (2 * z)). lia.
    + pose proof (spacing_multiplier_spec (- 2 * z - 1)). lia.
Qed.

Section MoreAxisFacts.

Variable n : Z.
Variable full : Q.
Hypothesis full_pos : (0 < full)%Q.

Lemma axis_offset_apart i j :
  0 <= i -> 0 <= j -> i <> j ->
  (full <= axis_offset n full j - axis_offset n full i \/
   full <= axis_offset n full i - axis_offset n full j)%Q.
Proof.
  intros Hi Hj Hne.
  assert (Hm : spacing_multiplier i <> spacing_multiplier j)
    by (intros E; apply Hne; now apply spacing_multiplier_injective).
  assert (Hstep : forall x y, spacing_multiplier x + 1 <= spacing_multiplier y ->
                  (full <= axis_offset n full y - axis_offset n full x)%Q).
  { intros x y L. rewrite Zle_Qle, inject_Z_plus in L.
    change (inject_Z 1) with 1%Q in L.
    apply Qmult_le_compat_r with (z := full) in L; [|lra].
    rewrite !axis_offset_eq. lra. }
  destruct (Z_lt_le_dec (spacing_multiplier i) (spacing_multiplier j)).
  - left. apply Hstep. lia.
  - right. apply Hstep. lia.
Qed.

Lemma axis_offset_within i :
  0 <= i < n ->
  (- (inject_Z (n - 1) * full) <= 2 * axis_offset n full i
   /\ 2 * axis_offset n full i <= inject_Z (n - 1) * full)%Q.
Proof.
  intros Hi. pose proof (spacing_multiplier_bounds n i Hi) as [L U].
  set (e := if n mod 2 =? 0 then 1 else 0) in *.
  assert (E : (2 * axis_offset n full i
               == inject_Z (2 * spacing_multiplier i + e) * full)%Q).
  { rewrite axis_offset_eq, inject_Z_plus, inject_Z_mult.
    change (inject_Z 2) with 2%Q. subst e.
    destruct (n mod 2 =? 0).
    - change (inject_Z 1) with 1%Q. field.
    - change (inject_Z 0) with 0%Q. ring. }
  rewrite E. rewrite Zle_Qle in L, U. rewrite inject_Z_opp in L.
  apply Qmult_le_compat_r with (z := full) in L; [|lra].
  apply Qmult_le_compat_r with (z := full) in U; [|lra].
  split; lra.
Qed.

Lemma nth_error_positions k p :
  nth_error (map (axis_offset n full) (PyStr.range 0 n)) k = Some p ->
  0 <= Z.of_nat k < n /\ p = axis_offset n full (Z.of_nat k).
Proof.
  unfold PyStr.range. rewrite !nth_error_map, nth_error_seq.
  destruct (k <? Z.to_nat (n - 0))%nat eqn:E; [|discriminate].
  apply Nat.ltb_lt in E. cbn. intros [= <-]. split; [lia | reflexivity].
Qed.

End MoreAxisFacts.

Lemma via_array_cell_structure (pdk : MappedPDK) (a b : string) (w h : Q)
      (lo hi : Z) (m : Q) (stack : Component) (cell : ArrayCell) :
  __error_check_order_layers pdk a b = Ok (lo, hi) ->
  lo <> hi ->
  compute_via_spacing pdk lo hi = Ok m ->
  via_stack pdk a b = Ok stack ->
  (0 < viadim_of stack + m)%Q ->
  via_array_cell pdk a b (w, h) = Ok cell ->
  let d := viadim_of stack in
  let nx := Z.max 1 (Qfloor (w / (d + m))) in
  let ny := Z.max 1 (Qfloor (h / (d + m))) in
  exists lay,
    (d <= w)%Q /\ (d <= h)%Q /\ get_glayer pdk (met hi) = Ok lay /\
    cell = mkArrayCell (rows_of (row_of stack nx (m + d)) ny (m + d))
                       [rectangle (w, h) lay].
Proof.
  intros Hr Hne Hm Hs Hp Hc d nx ny.
  rewrite (via_array_cell_unfold pdk a b (w, h) lo hi m stack Hr Hne Hm Hs) in Hc.
  cbv zeta in Hc. cbn [fst snd] in Hc. fold d in Hc.
  destruct (Qltb w d || Qltb h d) eqn:Hb; [discriminate|].
  apply orb_false_iff in Hb as [Hw Hh]. apply Qltb_false in Hw, Hh.
  pose proof (viadim_nonneg stack) as Hd. fold d in Hd.
  rewrite (num_vias_of_floor d m w), (num_vias_of_floor d m h) in Hc by assumption.
  cbn [bind] in Hc. inv_bind Hc. injection Hc as <-.
  exists v. auto.
Qed.

Lemma count_fits d m dim :
  (0 < d + m)%Q -> (0 <= m)%Q -> (d <= dim)%Q ->
  (inject_Z (Z.max 1 (Qfloor (dim / (d + m))) - 1) * (m + d) + d <= dim)%Q.
Proof.
  intros Hp Hm Hd.
  destruct (Z_lt_le_dec (Qfloor (dim / (d + m))) 1) as [L|L].
  - replace (Z.max 1 (Qfloor (dim / (d + m))) - 1) with 0 by lia.
    change (inject_Z 0) with 0%Q. lra.
  - replace (Z.max 1 (Qfloor (dim / (d + m)))) with (Qfloor (dim / (d + m))) by lia.
    pose proof (Qfloor_le (dim / (d + m))) as F.
    apply Qmult_le_compat_r with (z := (d + m)%Q) in F; [|lra].
    assert (E : (dim / (d + m) * (d + m) == dim)%Q) by (field; lra).
    rewrite E in F. unfold Z.sub. rewrite inject_Z_plus.
    change (inject_Z (- (1))) with (- (1))%Q. lra.
Qed.

(** X9. In the cell built by [via_array], any two distinct stack
    references of a row, and any two distinct row references, are at least
    one full pitch d + margin apart: no two instances coincide, and the
    bounding boxes of two instances (of side d) keep at least the margin
    between them. *)
Theorem via_array_instances_apart (pdk : MappedPDK) (a b : string) (w h : Q)
        (lo hi : Z) (m : Q) (stack : Component) (cell : ArrayCell) :
  __error_check_order_layers pdk a b = Ok (lo, hi) ->
  lo <> hi ->
  compute_via_spacing pdk lo hi = Ok m ->
  via_stack pdk a b = Ok stack ->
  (0 < viadim_of stack + m)%Q ->
  via_array_cell pdk a b (w, h) = Ok cell ->
  let apart (positions : list Q) :=
    forall i j p q,
      nth_error positions i = Some p -> nth_error positions j = Some q -> i <> j ->
      (viadim_of stack + m <= q - p \/ viadim_of stack + m <= p - q)%Q in
  apart (map ref_y (cell_rows cell)) /\
  Forall (fun row => apart (map ref_x (ref_parent row))) (cell_rows cell).
Proof.
  intros Hr Hne Hm Hs Hp Hc apart.
  destruct (via_array_cell_inv pdk a b w h lo hi m stack cell Hr Hne Hm Hs Hp Hc)
    as (nx & ny & Hnx & Hny & Hrows).
  assert (Hfull : (0 < m + viadim_of stack)%Q) by lra.
  assert (Hax : forall n, apart (map (axis_offset n (m + viadim_of stack))
                                     (PyStr.range 0 n))).
  { intros n i j p q Hi Hj Hne'.
    apply nth_error_positions in Hi as [Hi ->], Hj as [Hj ->].
    destruct (axis_offset_apart n _ Hfull (Z.of_nat i) (Z.of_nat j)) as [H | H];
      [lia | lia | lia | left | right]; lra. }
  rewrite Hrows. split.
  - unfold rows_of. rewrite map_map. cbn [ref_y]. apply Hax.
  - unfold rows_of. apply Forall_map, Forall_forall. intros j _. cbn [ref_parent].
    unfold row_of. rewrite map_map. cbn [ref_x]. apply Hax.
Qed.

Lemma via_array_instances_apart_witness :
  let apart (positions : list Q) :=
    forall i j p q,
      nth_error positions i = Some p -> nth_error positions j = Some q -> i <> j ->
      (viadim_of Sample.stack12 + (3 # 10) <= q - p \/
       viadim_of Sample.stack12 + (3 # 10) <= p - q)%Q in
  apart (map ref_y (cell_rows Sample.array12)) /\
  Forall (fun row => apart (map ref_x (ref_parent row))) (cell_rows Sample.array12).
Proof.
  apply (via_array_instances_apart Sample.pdk "met1" "met2" 4 2 1 2 (3 # 10)
           Sample.stack12 Sample.array12);
    [reflexivity | lia | reflexivity | vm_compute; reflexivity | reflexivity
    | vm_compute; reflexivity].
Defined.

(** X10. When the margin is not negative, every instance of the array lies
    within the requested area: along x the bounding box of each stack, of
    side d around its position, stays between -width/2 and width/2, and
    along y between -height/2 and height/2, so the instances are covered by
    the top plate. *)
Theorem via_array_instances_inside_area (pdk : MappedPDK) (a b : string) (w h : Q)
        (lo hi : Z) (m : Q) (stack : Component) (cell : ArrayCell) :
  __error_check_order_layers pdk a b = Ok (lo, hi) ->
  lo <> hi ->
  compute_via_spacing pdk lo hi = Ok m ->
  via_stack pdk a b = Ok stack ->
  (0 < viadim_of stack + m)%Q ->
  (0 <= m)%Q ->
  via_array_cell pdk a b (w, h) = Ok cell ->
  let d := viadim_of stack in
  (forall y, In y (map ref_y (cell_rows cell)) ->
             (- (h / 2) <= y - d / 2 /\ y + d / 2 <= h / 2)%Q) /\
  Forall (fun row =>
            forall x, In x (map ref_x (ref_parent row)) ->
                      (- (w / 2) <= x - d / 2 /\ x + d / 2 <= w / 2)%Q)
         (cell_rows cell).
Proof.
  intros Hr Hne Hm Hs Hp Hm0 Hc d.
  destruct (via_array_cell_structure pdk a b w h lo hi m stack cell Hr Hne Hm Hs Hp Hc)
    as (lay & Hw & Hh & _ & ->). fold d in Hw, Hh, Hp |- *.
  assert (Hfull : (0 < m + d)%Q) by lra.
  assert (Hax : forall dim p,
            (d <= dim)%Q ->
            In p (map (axis_offset (Z.max 1 (Qfloor (dim / (d + m)))) (m + d))
                      (PyStr.range 0 (Z.max 1 (Qfloor (dim / (d + m)))))) ->
            (- (dim / 2) <= p - d / 2 /\ p + d / 2 <= dim / 2)%Q).
  { intros dim p Hdim Hin. apply in_positions in Hin as (i & Hi & ->).
    pose proof (axis_offset_within _ _ Hfull i Hi) as [L U].
    pose proof (count_fits d m dim Hp Hm0 Hdim) as F.
    set (N := Z.max 1 (Qfloor (dim / (d + m)))) in *.
    set (P := axis_offset N (m + d) i) in *.
    set (A := (inject_Z (N - 1) * (m + d))%Q) in *.
    unfold Qdiv. change (/ 2)%Q with (1 # 2)%Q. split; lra. }
  cbn [cell_rows]. split.
  - intros y Hy. unfold rows_of in Hy. rewrite map_map in Hy. cbn [ref_y] in Hy.
    now apply Hax.
  - unfold rows_of. apply Forall_map, Forall_forall. intros j _. cbn [ref_parent].
    intros x Hx. unfold row_of in Hx. rewrite map_map in Hx. cbn [ref_x] in Hx.
    now apply Hax.
Qed.

Lemma via_array_instances_inside_area_witness :
  let d := viadim_of Sample.stack12 in
  (forall y, In y (map ref_y (cell_rows Sample.array12)) ->
             (- (2 / 2) <= y - d / 2 /\ y + d / 2 <= 2 / 2)%Q) /\
  Forall (fun row =>
            forall x, In x (map ref_x (ref_parent row)) ->
                      (- (4 / 2) <= x - d / 2 /\ x + d / 2 <= 4 / 2)%Q)
         (cell_rows Sample.array12).
Proof.
  apply (via_array_instances_inside_area Sample.pdk "met1" "met2" 4 2 1 2 (3 # 10)
           Sample.stack12 Sample.array12);
    [reflexivity | lia | reflexivity | vm_compute; reflexivity | reflexivity
    | discriminate | vm_compute; reflexivity].
Defined.

(** * The footprint of a stack *)

Lemma Qmin_cases x y : Qmin x y = x \/ Qmin x y = y.
Proof.
  unfold Qmin, GenericMinMax.gmin. destruct (x ?= y)%Q; auto.
Qed.

Section ExtentFacts.

Variable f : Rect -> Q.

Lemma fold_max_ge l : forall x r,
  In r l -> (f r <= fold_left (fun acc r' => Qmax acc (f r')) l x)%Q.
Proof.
  induction l as [|y l IH]; intros x r []; cbn [fold_left].
  - subst y. eapply Qle_trans; [apply Q.le_max_r | apply fold_Qmax_le].
  - now apply IH.
Qed.

Lemma fold_min_le l : forall x r,
  In r l -> (fold_left (fun acc r' => Qmin acc (f r')) l x <= f r)%Q.
Proof.
  induction l as [|y l IH]; intros x r []; cbn [fold_left].
  - subst y. eapply Qle_trans; [apply fold_Qmin_le | apply Q.le_min_r].
  - now apply IH.
Qed.

Lemma fold_max_attained l : forall x,
  fold_left (fun acc r' => Qmax acc (f r')) l x = x \/
  exists r, In r l /\ fold_left (fun acc r' => Qmax acc (f r')) l x = f r.
Proof.
  induction l as [|y l IH]; intros x; cbn [fold_left]; [left; reflexivity|].
  destruct (IH (Qmax x (f y))) as [H | (r & Hr & H)].
  - rewrite H. destruct (Qmax_cases x (f y)) as [-> | ->]; [left; reflexivity|].
    right. exists y. split; [left|]; reflexivity.
  - right. exists r. split; [right|]; trivial.
Qed.

Lemma fold_min_attained l : forall x,
  fold_left (fun acc r' => Qmin acc (f r')) l x = x \/
  exists r, In r l /\ fold_left (fun acc r' => Qmin acc (f r')) l x = f r.
Proof.
  induction l as [|y l IH]; intros x; cbn [fold_left]; [left; reflexivity|].
  destruct (IH (Qmin x (f y))) as [H | (r & Hr & H)].
  - rewrite H. destruct (Qmin_cases x (f y)) as [-> | ->]; [left; reflexivity|].
    right. exists y. split; [left|]; reflexivity.
  - right. exists r. split; [right|]; trivial.
Qed.

Lemma extent_max_ge c r : In r c -> (f r <= extent Qmax f c)%Q.
Proof.
  destruct c as [|r1 c]; intros []; unfold extent.
  - subst r1. apply fold_Qmax_le.
  - now apply fold_max_ge.
Qed.

Lemma extent_min_le c r : In r c -> (extent Qmin f c <= f r)%Q.
Proof.
  destruct c as [|r1 c]; intros []; unfold extent.
  - subst r1. apply fold_Qmin_le.
  - now apply fold_min_le.
Qed.

Lemma extent_max_attained c : c <> [] -> exists r, In r c /\ extent Qmax f c = f r.
Proof.
  destruct c as [|r1 c]; [congruence|]. intros _. unfold extent.
  destruct (fold_max_attained c (f r1)) as [H | (r & Hr & H)].
  - exists r1. split; [left; reflexivity | exact H].
  - exists r. split; [right|]; trivial.
Qed.

Lemma extent_min_attained c : c <> [] -> exists r, In r c /\ extent Qmin f c = f r.
Proof.
  destruct c as [|r1 c]; [congruence|]. intros _. unfold extent.
  destruct (fold_min_attained c (f r1)) as [H | (r & Hr & H)].
  - exists r1. split; [left; reflexivity | exact H].
  - exists r. split; [right|]; trivial.
Qed.

End ExtentFacts.

Lemma rect_x_span r : (rect_xmax r - rect_xmin r == Qabs (r_w r))%Q.
Proof.
  unfold rect_xmax, rect_xmin.
  set (lo := (r_cx r - r_w r / 2)%Q). set (hi := (r_cx r + r_w r / 2)%Q).
  assert (E : (hi - lo == r_w r)%Q) by (subst lo hi; field).
  destruct (Q.max_spec lo hi) as [[L ->] | [L ->]];
    destruct (Q.min_spec lo hi) as [[L' ->] | [L' ->]];
    apply Qabs_case; intros; lra.
Qed.

Lemma rect_y_span r : (rect_ymax r - rect_ymin r == Qabs (r_h r))%Q.
Proof.
  unfold rect_ymax, rect_ymin.
  set (lo := (r_cy r - r_h r / 2)%Q). set (hi := (r_cy r + r_h r / 2)%Q).
  assert (E : (hi - lo == r_h r)%Q) by (subst lo hi; field).
  destruct (Q.max_spec lo hi) as [[L ->] | [L ->]];
    destruct (Q.min_spec lo hi) as [[L' ->] | [L' ->]];
    apply Qabs_case; intros; lra.
Qed.

Lemma centred_rect_x r :
  r_cx r = 0%Q -> (rect_xmax r == Qabs (r_w r) * (1 # 2) /\
                   rect_xmin r == - (Qabs (r_w r) * (1 # 2)))%Q.
Proof.
  intros C. unfold rect_xmax, rect_xmin. rewrite C.
  unfold Qdiv. change (/ 2)%Q with (1 # 2)%Q.
  destruct (Q.max_spec (0 - r_w r * (1 # 2)) (0 + r_w r * (1 # 2))) as [[L ->] | [L ->]];
    destruct (Q.min_spec (0 - r_w r * (1 # 2)) (0 + r_w r * (1 # 2)))
      as [[L' ->] | [L' ->]];
    apply Qabs_case; intros; split; lra.
Qed.

Lemma centred_rect_y r :
  r_cy r = 0%Q -> (rect_ymax r == Qabs (r_h r) * (1 # 2) /\
                   rect_ymin r == - (Qabs (r_h r) * (1 # 2)))%Q.
Proof.
  intros C. unfold rect_ymax, rect_ymin. rewrite C.
  unfold Qdiv. change (/ 2)%Q with (1 # 2)%Q.
  destruct (Q.max_spec (0 - r_h r * (1 # 2)) (0 + r_h r * (1 # 2))) as [[L ->] | [L ->]];
    destruct (Q.min_spec (0 - r_h r * (1 # 2)) (0 + r_h r * (1 # 2)))
      as [[L' ->] | [L' ->]];
    apply Qabs_case; intros; split; lra.
Qed.

(** The bounding dimension of a non-empty component of centred squares is
    the largest side among them. *)
Lemma viadim_largest_side c :
  c <> [] -> Forall centred_square c ->
  Forall (fun r => (Qabs (r_w r) <= viadim_of c)%Q) c /\
  Exists (fun r => (viadim_of c == Qabs (r_w r))%Q) c.
Proof.
  intros Hne Hsq. rewrite Forall_forall in Hsq.
  assert (Hx : forall r, In r c -> (Qabs (r_w r) <= xmax c - xmin c)%Q).
  { intros r Hr. rewrite <- rect_x_span.
    pose proof (extent_max_ge rect_xmax c r Hr).
    pose proof (extent_min_le rect_xmin c r Hr). unfold xmax, xmin. lra. }
  assert (Hy : forall r, In r c -> (Qabs (r_w r) <= ymax c - ymin c)%Q).
  { intros r Hr. destruct (Hsq r Hr) as (_ & _ & ->). rewrite <- rect_y_span.
    pose proof (extent_max_ge rect_ymax c r Hr).
    pose proof (extent_min_le rect_ymin c r Hr). unfold ymax, ymin. lra. }
  split.
  - apply Forall_forall. intros r Hr. unfold viadim_of.
    eapply Qle_trans; [apply (Hx r Hr) | apply Q.le_max_l].
  - destruct (extent_max_attained rect_xmax c Hne) as (x1 & Hx1 & Ex1).
    destruct (extent_min_attained rect_xmin c Hne) as (x2 & Hx2 & Ex2).
    destruct (extent_max_attained rect_ymax c Hne) as (y1 & Hy1 & Ey1).
    destruct (extent_min_attained rect_ymin c Hne) as (y2 & Hy2 & Ey2).
    destruct (Hsq x1 Hx1) as (Cx1 & _ & _). destruct (Hsq x2 Hx2) as (Cx2 & _ & _).
    destruct (Hsq y1 Hy1) as (_ & Cy1 & Sy1). destruct (Hsq y2 Hy2) as (_ & Cy2 & Sy2).
    destruct (centred_rect_x x1 Cx1) as [Mx1 _]. destruct (centred_rect_x x2 Cx2) as [_ Mx2].
    destruct (centred_rect_y y1 Cy1) as [My1 _]. destruct (centred_rect_y y2 Cy2) as [_ My2].
    rewrite <- Sy1 in My1. rewrite <- Sy2 in My2.
    pose proof (Hx x1 Hx1) as B1. pose proof (Hx x2 Hx2) as B2.
    pose proof (Hy y1 Hy1) as B3. pose proof (Hy y2 Hy2) as B4.
    unfold xmax, xmin in B1, B2. unfold ymax, ymin in B3, B4.
    rewrite Ex1, Ex2 in B1, B2. rewrite Ey1, Ey2 in B3, B4.
    unfold viadim_of, xmax, xmin, ymax, ymin. rewrite Ex1, Ex2, Ey1, Ey2.
    destruct (Qmax_cases (rect_xmax x1 - rect_xmin x2) (rect_ymax y1 - rect_ymin y2))
      as [-> | ->]; apply Exists_exists.
    + exists x1. split; [exact Hx1 | lra].
    + exists y1. split; [exact Hy1 | lra].
Qed.

Lemma stack_shape_squares pdk lo hi c :
  stack_shape pdk lo hi c -> Forall centred_square c.
Proof.
  intros (base & body & top & -> & Hbase & Hbody & Htop).
  apply Forall_app; split; [|apply Forall_app; split].
  - destruct (lo =? 0).
    + destruct Hbase as (cut & pad & -> & Hc & Hp).
      constructor; [eauto using is_cut_square|].
      constructor; [eauto using is_pad_square | constructor].
    + subst base. constructor.
  - eapply levels_laid_squares; eauto.
  - destruct (Z.max lo 1 <? hi).
    + destruct Htop as (p & -> & Hp).
      constructor; [eauto using is_pad_square | constructor].
    + subst top. constructor.
Qed.

Lemma stack_shape_nonempty pdk lo hi c :
  0 <= lo < hi -> stack_shape pdk lo hi c -> c <> [].
Proof.
  intros Hl (base & body & top & -> & Hbase & _ & Htop).
  destruct (lo =? 0) eqn:E0.
  - destruct Hbase as (cut & pad & -> & _). discriminate.
  - replace (Z.max lo 1 <? hi) with true in Htop by lia.
    destruct Htop as (p & -> & _). intros H.
    apply app_eq_nil in H as [_ H]. apply app_eq_nil in H as [_ H]. discriminate.
Qed.

(** X12. The bounding dimension d that [via_array] measures on a stack
    between distinct levels is the side of the largest rectangle of the
    stack: no rectangle of the stack is wider than d and one of them is
    exactly d wide. *)
Theorem via_stack_footprint_is_largest_side (pdk : MappedPDK) (a b : string)
        (lo hi : Z) (c : Component) :
  __error_check_order_layers pdk a b = Ok (lo, hi) ->
  lo <> hi ->
  via_stack pdk a b = Ok c ->
  Forall (fun r => (Qabs (r_w r) <= viadim_of c)%Q) c /\
  Exists (fun r => (viadim_of c == Qabs (r_w r))%Q) c.
Proof.
  intros Hr Hne Hs. pose proof (resolver_ordered _ _ _ _ _ Hr) as Hord.
  pose proof (via_stack_shape pdk a b lo hi c Hr Hne Hs) as Hshape.
  apply viadim_largest_side.
  - eapply stack_shape_nonempty; [|exact Hshape]. lia.
  - eapply stack_shape_squares; eauto.
Qed.

Lemma via_stack_footprint_is_largest_side_witness :
  Forall (fun r => (Qabs (r_w r) <= viadim_of Sample.stack12)%Q) Sample.stack12 /\
  Exists (fun r => (viadim_of Sample.stack12 == Qabs (r_w r))%Q) Sample.stack12.
Proof.
  apply (via_stack_footprint_is_largest_side Sample.pdk "met1" "met2" 1 2);
    [reflexivity | lia | vm_compute; reflexivity].
Defined.

(** X13. For a positive pitch the number of instances along an axis never
    decreases when the axis gets longer. *)
Theorem num_vias_monotone (d m dim dim' : Q) (n n' : Z) :
  (0 < d + m)%Q -> (dim <= dim')%Q ->
  num_vias_of d m dim = Ok n -> num_vias_of d m dim' = Ok n' ->
  n <= n'.
Proof.
  intros Hp Hle. unfold num_vias_of.
  destruct (Qeq_bool (d + m) 0) eqn:E; [discriminate|].
  assert (H : Qfloor (dim / (d + m)) <= Qfloor (dim' / (d + m))).
  { apply Qfloor_resp_le. unfold Qdiv. apply Qmult_le_compat_r; [exact Hle|].
    apply Qlt_le_weak, Qinv_lt_0_compat, Hp. }
  cbv zeta. revert H.
  generalize (Qfloor (dim / (d + m))) (Qfloor (dim' / (d + m))).
  intros k k' H [= <-] [= <-].
  destruct (k =? 0) eqn:E1; destruct (k' =? 0) eqn:E2; lia.
Qed.

Lemma num_vias_monotone_witness :
  num_vias_of (5 # 10) (3 # 10) 2 = Ok 2 /\
  num_vias_of (5 # 10) (3 # 10) 4 = Ok 5 /\ 2 <= 5.
Proof.
  split; [reflexivity|]. split; [reflexivity|].
  apply (num_vias_monotone (5 # 10) (3 # 10) 2 4 2 5);
    [reflexivity | discriminate | reflexivity | reflexivity].
Defined.

(** * When a stack can be built *)

Section StackSuccess.

Variable pdk : MappedPDK.

Lemma is_pad_rules m v r : is_pad pdk m v r -> pad_rules pdk m v.
Proof.
  intros (enc & w & minw & lay & He & Hw & Hm & Hl & _).
  repeat split; eauto.
Qed.

Lemma is_cut_rules v r : is_cut pdk v r -> cut_rules pdk v.
Proof. intros (w & lay & Hw & Hl & _). split; eauto. Qed.

Lemma has_required_unit l u : has_required_glayers pdk l = Ok u ->
  has_required_glayers pdk l = Ok tt.
Proof. destruct u. trivial. Qed.

Lemma lay_mcon_needs vs vs' :
  lay_mcon pdk vs = Ok vs' ->
  has_required_glayers pdk ["mcon"; "met1"] = Ok tt /\
  cut_rules pdk "mcon" /\ pad_rules pdk "met1" "mcon".
Proof.
  intros H. pose proof H as H'.
  apply lay_mcon_inv in H' as (cut & pad & _ & Hc & Hp).
  unfold lay_mcon in H. inv_bind H.
  split; [eapply has_required_unit; eauto|].
  split; [eapply is_cut_rules | eapply is_pad_rules]; eauto.
Qed.

Lemma lay_level_needs vs l vs' :
  lay_level pdk vs l = Ok vs' ->
  has_required_glayers pdk [met l; via l] = Ok tt /\
  pad_rules pdk (met l) (via l) /\ cut_rules pdk (via l).
Proof.
  intros H. pose proof H as H'.
  apply lay_level_inv in H' as (pad & cut & _ & Hp & Hc).
  unfold lay_level in H. inv_bind H.
  split; [eapply has_required_unit; eauto|].
  split; [eapply is_pad_rules | eapply is_cut_rules]; eauto.
Qed.

Lemma lay_levels_needs levels : forall vs lv r,
  lay_levels pdk levels vs lv = Ok r ->
  forall l, In l levels ->
            has_required_glayers pdk [met l; via l] = Ok tt /\
            pad_rules pdk (met l) (via l) /\ cut_rules pdk (via l).
Proof.
  induction levels as [|l0 ls IH]; intros vs lv r H l []; cbn [lay_levels] in H;
    inv_bind H.
  - subst l0. eapply lay_level_needs; eauto.
  - eapply IH; eauto.
Qed.

Lemma lay_mcon_succeeds vs :
  has_required_glayers pdk ["mcon"; "met1"] = Ok tt ->
  cut_rules pdk "mcon" -> pad_rules pdk "met1" "mcon" ->
  exists vs', lay_mcon pdk vs = Ok vs'.
Proof.
  intros Hreq [[w Hw] [lc Hlc]] ([enc He] & [w' Hw'] & [minw Hm] & [lm Hlm]).
  unfold lay_mcon. rewrite Hreq. cbn [bind]. rewrite Hw. cbn [bind].
  rewrite Hlc. cbn [bind]. rewrite He. cbn [bind]. rewrite Hm. cbn [bind].
  rewrite Hlm. cbn [bind]. eauto.
Qed.

Lemma lay_level_succeeds vs l :
  has_required_glayers pdk [met l; via l] = Ok tt ->
  pad_rules pdk (met l) (via l) -> cut_rules pdk (via l) ->
  exists vs', lay_level pdk vs l = Ok vs'.
Proof.
  intros Hreq ([enc He] & [w Hw] & [minw Hm] & [lm Hlm]) [_ [lv Hlv]].
  unfold lay_level. fold (met l) (via l).
  rewrite Hreq. cbn [bind]. rewrite He. cbn [bind]. rewrite Hw. cbn [bind].
  rewrite Hm. cbn [bind]. rewrite Hlm. cbn [bind]. rewrite Hlv. cbn [bind]. eauto.
Qed.

Lemma lay_levels_succeeds levels : forall vs lv,
  (forall l, In l levels ->
             has_required_glayers pdk [met l; via l] = Ok tt /\
             pad_rules pdk (met l) (via l) /\ cut_rules pdk (via l)) ->
  exists r, lay_levels pdk levels vs lv = Ok r.
Proof.
  induction levels as [|l ls IH]; intros vs lv H; cbn [lay_levels]; [eauto|].
  destruct (H l) as (Hreq & Hp & Hc); [left; reflexivity|].
  destruct (lay_level_succeeds vs l Hreq Hp Hc) as [vs' ->]. cbn [bind].
  apply IH. intros l' Hl'. apply H. right. exact Hl'.
Qed.

Lemma lay_metals_succeeds vs l1 l2 :
  1 <= l1 < l2 ->
  (forall l, l1 <= l < l2 ->
             has_required_glayers pdk [met l; via l] = Ok tt /\
             pad_rules pdk (met l) (via l) /\ cut_rules pdk (via l)) ->
  pad_rules pdk (met l2) (via (l2 - 1)) ->
  exists c, lay_metals pdk vs l1 l2 = Ok c.
Proof.
  intros Hl Hlev ([enc He] & [w Hw] & [minw Hm] & [lm Hlm]).
  unfold lay_metals.
  replace (l1 =? 0) with false by lia. replace (l2 =? 0) with false by lia.
  cbn [negb andb].
  destruct (lay_levels_succeeds (PyStr.range l1 l2) vs None) as [[vs1 lv] E].
  { intros l Hin. apply Hlev. now apply RangeFacts.in_range. }
  rewrite E. cbn [bind].
  apply lay_levels_inv in E as (_ & _ & _ & ->). rewrite last_range by lia.
  cbn [bind]. fold (met l2) (via (l2 - 1)).
  rewrite He. cbn [bind]. rewrite Hw. cbn [bind]. rewrite Hm. cbn [bind].
  rewrite Hlm. cbn [bind]. eauto.
Qed.

Lemma lay_metals_needs vs l1 l2 c :
  1 <= l1 < l2 ->
  lay_metals pdk vs l1 l2 = Ok c ->
  (forall l, l1 <= l < l2 ->
             has_required_glayers pdk [met l; via l] = Ok tt /\
             pad_rules pdk (met l) (via l) /\ cut_rules pdk (via l)) /\
  pad_rules pdk (met l2) (via (l2 - 1)).
Proof.
  intros Hl H. pose proof H as H'.
  apply lay_metals_inv in H' as (_ & pad & _ & _ & Hp); [|exact Hl].
  split; [|eapply is_pad_rules; eauto].
  unfold lay_metals in H.
  replace (l1 =? 0) with false in H by lia. replace (l2 =? 0) with false in H by lia.
  cbn [negb andb] in H. inv_bind H.
  intros l Hin. eapply lay_levels_needs; [exact E|]. now apply RangeFacts.in_range.
Qed.

End StackSuccess.

Lemma via_stack_ok_iff (pdk : MappedPDK) (a b : string) (lo hi : Z) :
  __error_check_order_layers pdk a b = Ok (lo, hi) ->
  lo <> hi ->
  (exists c, via_stack pdk a b = Ok c) <-> stack_rules_present pdk lo hi.
Proof.
  intros Hr Hne. pose proof (resolver_ordered _ _ _ _ _ Hr) as Hord.
  unfold via_stack. rewrite Hr. cbn [bind]. replace (lo =? hi) with false by lia.
  unfold stack_rules_present. destruct (lo =? 0) eqn:E0.
  - apply Z.eqb_eq in E0. subst lo. change (Z.max 0 1) with 1. split.
    + intros [c H]. inv_bind H. pose proof (lay_mcon_needs pdk _ _ E) as Hb.
      split; [intros _; exact Hb|].
      destruct (0 + 1 =? hi) eqn:E1.
      * split; [intros l Hl; lia | intros Hl; lia].
      * apply lay_metals_needs in H as [H1 H2]; [|lia]. split; [exact H1|].
        intros _. exact H2.
    + intros (Hb & Hlev & Htop). destruct Hb as (Hreq & Hc & Hp); [reflexivity|].
      destruct (lay_mcon_succeeds pdk [] Hreq Hc Hp) as [vs ->]. cbn [bind].
      destruct (0 + 1 =? hi) eqn:E1; [eauto|].
      apply lay_metals_succeeds; [lia | exact Hlev | apply Htop; lia].
  - apply Z.eqb_neq in E0. replace (Z.max lo 1) with lo by lia. split.
    + intros [c H]. apply lay_metals_needs in H as [H1 H2]; [|lia].
      split; [intros; lia|]. split; [exact H1 | intros _; exact H2].
    + intros (_ & Hlev & Htop).
      apply lay_metals_succeeds; [lia | exact Hlev | apply Htop; lia].
Qed.

(** X14. For two layers that resolve to distinct levels, [via_stack]
    returns a geometry exactly when the rule source has what the traversal
    asks for: for a low level 0 the contact and metal-1 layers with the
    contact's width and metal-1's enclosure and minimum width; for every
    traversed level the metal and via layers with their enclosure, width
    and minimum-width rules; and the same rules for the upper metal against
    the last via.  Otherwise it fails, and the failure is a missing rule. *)
Theorem via_stack_succeeds_iff_rules_present (pdk : MappedPDK) (a b : string)
        (lo hi : Z) :
  __error_check_order_layers pdk a b = Ok (lo, hi) ->
  lo <> hi ->
  ((exists c, via_stack pdk a b = Ok c) <-> stack_rules_present pdk lo hi) /\
  (~ stack_rules_present pdk lo hi -> via_stack pdk a b = Raise MissingRule).
Proof.
  intros Hr Hne. pose proof (resolver_ordered _ _ _ _ _ Hr) as Hord.
  pose proof (via_stack_ok_iff pdk a b lo hi Hr Hne) as Hiff.
  split; [exact Hiff|].
  intros Hno. destruct (via_stack pdk a b) as [c|e] eqn:Hs.
  - exfalso. apply Hno. apply Hiff. eauto.
  - apply via_stack_raises in Hs as [Hs | [-> _]]; [congruence | reflexivity].
Qed.

Lemma via_stack_succeeds_iff_rules_present_witness :
  ((exists c, via_stack Sample.pdk "poly" "met3" = Ok c) <->
   stack_rules_present Sample.pdk 0 3) /\
  (~ stack_rules_present Sample.pdk 0 3 ->
   via_stack Sample.pdk "poly" "met3" = Raise MissingRule).
Proof.
  apply (via_stack_succeeds_iff_rules_present Sample.pdk "poly" "met3" 0 3);
    [reflexivity | lia].
Defined.

(** * More on the packer *)

Lemma via_stack_swap pdk a b : via_stack pdk a b = via_stack pdk b a.
Proof. unfold via_stack. now rewrite (resolver_comm pdk a b). Qed.

(** X15. [via_array] does not depend on the order of its two layers: for
    every rule source, pair of names and size, both orders give the same
    result. *)
Theorem via_array_commutative (pdk : MappedPDK) (a b : string) (size : Q * Q) :
  via_array pdk a b size = via_array pdk b a size.
Proof.
  unfold via_array, via_array_cell.
  rewrite (resolver_comm pdk a b), (via_stack_swap pdk a b). reflexivity.
Qed.

(** * Stacks compose *)

Section StackComposition.

Variable pdk : MappedPDK.

Lemma is_pad_unique m v r r' : is_pad pdk m v r -> is_pad pdk m v r' -> r = r'.
Proof.
  intros (enc & w & minw & lay & He & Hw & Hm & Hl & ->)
         (enc' & w' & minw' & lay' & He' & Hw' & Hm' & Hl' & ->).
  congruence.
Qed.

Lemma is_cut_unique v r r' : is_cut pdk v r -> is_cut pdk v r' -> r = r'.
Proof.
  intros (w & lay & Hw & Hl & ->) (w' & lay' & Hw' & Hl' & ->). congruence.
Qed.

Lemma levels_laid_unique levels c :
  levels_laid pdk levels c -> forall c', levels_laid pdk levels c' -> c = c'.
Proof.
  induction 1 as [|l ls pad cut rest Hp Hc _ IH]; intros c' H'; inversion H'; subst.
  - reflexivity.
  - f_equal; [eapply is_pad_unique; eauto|].
    f_equal; [eapply is_cut_unique; eauto | now apply IH].
Qed.

Lemma stack_shape_unique lo hi c c' :
  stack_shape pdk lo hi c -> stack_shape pdk lo hi c' -> c = c'.
Proof.
  intros (base & body & top & -> & Hbase & Hbody & Htop)
         (base' & body' & top' & -> & Hbase' & Hbody' & Htop').
  rewrite (levels_laid_unique _ _ Hbody _ Hbody'). f_equal; [|f_equal].
  - destruct (lo =? 0); [|congruence].
    destruct Hbase as (cut & pad & -> & Hc & Hp).
    destruct Hbase' as (cut' & pad' & -> & Hc' & Hp').
    f_equal; [eapply is_cut_unique; eauto|].
    f_equal. eapply is_pad_unique; eauto.
  - destruct (Z.max lo 1 <? hi); [|congruence].
    destruct Htop as (pad & -> & Hp). destruct Htop' as (pad' & -> & Hp').
    f_equal. eapply is_pad_unique; eauto.
Qed.

Lemma levels_laid_app l1 c1 :
  levels_laid pdk l1 c1 ->
  forall l2 c2, levels_laid pdk l2 c2 -> levels_laid pdk (l1 ++ l2)%list (c1 ++ c2)%list.
Proof.
  induction 1; intros l2 c2 H2; cbn [app]; [exact H2|].
  constructor; auto.
Qed.

Lemma range_split_nat k : forall lo hi,
  lo + Z.of_nat k <= hi ->
  PyStr.range lo hi
  = (PyStr.range lo (lo + Z.of_nat k) ++ PyStr.range (lo + Z.of_nat k) hi)%list.
Proof.
  induction k as [|k IH]; intros lo hi H.
  - rewrite Z.add_0_r, (RangeFacts.range_empty lo lo) by lia. reflexivity.
  - rewrite (RangeFacts.range_cons lo hi), (RangeFacts.range_cons lo (lo + Z.of_nat (S k)))
      by lia.
    cbn [app]. f_equal.
    replace (lo + Z.of_nat (S k)) with (lo + 1 + Z.of_nat k) by lia.
    apply IH. lia.
Qed.

Lemma range_split lo mid hi :
  lo <= mid <= hi -> PyStr.range lo hi = (PyStr.range lo mid ++ PyStr.range mid hi)%list.
Proof.
  intros H. replace mid with (lo + Z.of_nat (Z.to_nat (mid - lo))) by lia.
  apply range_split_nat. lia.
Qed.

Lemma stack_rules_present_join lo mid hi :
  0 <= lo < mid -> mid < hi ->
  stack_rules_present pdk lo mid -> stack_rules_present pdk mid hi ->
  stack_rules_present pdk lo hi.
Proof.
  intros Hl Hh (B1 & L1 & _) (_ & L2 & T2). split; [exact B1|]. split.
  - intros l Hlv. destruct (Z_lt_le_dec l mid); [apply L1 | apply L2]; lia.
  - intros _. apply T2. lia.
Qed.

(** The stack between lo and hi is the stack between lo and mid, without
    its upper pad, followed by the stack between mid and hi; for lo = 0 and
    mid = 1 the lower stack has no upper pad to drop. *)
Lemma stack_shape_join lo mid hi s1 s2 :
  0 <= lo < mid -> mid < hi ->
  stack_shape pdk lo mid s1 -> stack_shape pdk mid hi s2 ->
  stack_shape pdk lo hi
    ((if (lo =? 0) && (mid =? 1) then s1 else removelast s1) ++ s2)%list.
Proof.
  intros Hl Hh (base1 & body1 & top1 & -> & Hbase1 & Hbody1 & Htop1)
         (base2 & body2 & top2 & -> & Hbase2 & Hbody2 & Htop2).
  replace (mid =? 0) with false in Hbase2 by lia. subst base2.
  replace (Z.max mid 1) with mid in * by lia.
  assert (E : (if (lo =? 0) && (mid =? 1) then (base1 ++ body1 ++ top1)%list
               else removelast (base1 ++ body1 ++ top1)) = (base1 ++ body1)%list).
  { destruct (Z.max lo 1 <? mid) eqn:E1.
    - destruct Htop1 as (pad & -> & _).
      replace ((lo =? 0) && (mid =? 1)) with false
        by (destruct (lo =? 0) eqn:E0; [replace (mid =? 1) with false by lia|]; reflexivity).
      now rewrite !app_assoc, removelast_last.
    - subst top1. assert (lo = 0 /\ mid = 1) as [-> ->] by lia.
      cbn [Z.eqb andb]. now rewrite app_nil_r. }
  rewrite E. exists base1, (body1 ++ body2)%list, top2.
  split; [cbn [app]; now rewrite <- !app_assoc|].
  split; [exact Hbase1|]. split; [|replace (Z.max lo 1 <? hi) with true by lia; replace (mid <? hi) with true in Htop2 by lia; exact Htop2].
  rewrite (range_split (Z.max lo 1) mid hi) by lia.
  now apply levels_laid_app.
Qed.

End StackComposition.

(** In the order in which the model adds the rectangles: the stack from A
    to C is the stack from A to B without its last rectangle (its upper
    pad), followed by the stack from B to C. *)
Lemma via_stack_join_ordered (pdk : MappedPDK) (a b c : string) (lo mid hi : Z)
        (s1 s2 : Component) :
  __error_check_order_layers pdk a b = Ok (lo, mid) ->
  __error_check_order_layers pdk b c = Ok (mid, hi) ->
  lo < mid -> mid < hi ->
  via_stack pdk a b = Ok s1 ->
  via_stack pdk b c = Ok s2 ->
  __error_check_order_layers pdk a c = Ok (lo, hi) /\
  via_stack pdk a c
  = Ok ((if (lo =? 0) && (mid =? 1) then s1 else removelast s1) ++ s2)%list.
Proof.
  intros Hab Hbc Hl Hh Hs1 Hs2.
  pose proof (resolver_ordered _ _ _ _ _ Hab) as O1.
  assert (Hac : __error_check_order_layers pdk a c = Ok (lo, hi)).
  { pose proof Hab as Hab'. pose proof Hbc as Hbc'.
    apply resolver_inv in Hab' as (Ra & Rb & la & lb & Hla & Hlb & E1 & E2).
    apply resolver_inv in Hbc' as (_ & Rc & lb' & lc & Hlb' & Hlc & E3 & E4).
    assert (lb' = lb) by congruence. subst lb'.
    rewrite (resolver_success pdk a c la lc Ra Rc Hla Hlc). f_equal. f_equal; lia. }
  split; [exact Hac|].
  assert (N1 : lo <> mid) by lia. assert (N2 : mid <> hi) by lia.
  assert (N3 : lo <> hi) by lia.
  pose proof (via_stack_shape pdk a b lo mid s1 Hab N1 Hs1) as Sh1.
  pose proof (via_stack_shape pdk b c mid hi s2 Hbc N2 Hs2) as Sh2.
  assert (P1 : stack_rules_present pdk lo mid)
    by (apply (via_stack_ok_iff pdk a b lo mid Hab N1); eauto).
  assert (P2 : stack_rules_present pdk mid hi)
    by (apply (via_stack_ok_iff pdk b c mid hi Hbc N2); eauto).
  assert (P : stack_rules_present pdk lo hi)
    by (apply (stack_rules_present_join pdk lo mid hi); trivial; lia).
  apply (via_stack_ok_iff pdk a c lo hi Hac N3) in P as [s Hs].
  rewrite Hs. f_equal.
  apply (stack_shape_unique pdk lo hi).
  - exact (via_stack_shape pdk a c lo hi s Hac N3 Hs).
  - apply stack_shape_join; trivial; lia.
Qed.


(** X17. Stacks compose: when the stack from A to B (levels lo < mid) and
    the stack from B to C (levels mid < hi) can both be built, so can the
    stack from A to C, and its rectangles are, up to their order, those of
    the first stack except its upper pad (the pad of the middle metal
    around the via below it) together with those of the second stack.  The
    pad of the middle metal is thus sized against the via above it only.
    For lo = 0 and mid = 1 nothing is dropped: metal 1 keeps its pad around
    the contact and gets a second pad around via 1. *)
Theorem via_stack_composes (pdk : MappedPDK) (a b c : string) (lo mid hi : Z)
        (s1 s2 : Component) :
  __error_check_order_layers pdk a b = Ok (lo, mid) ->
  __error_check_order_layers pdk b c = Ok (mid, hi) ->
  lo < mid -> mid < hi ->
  via_stack pdk a b = Ok s1 ->
  via_stack pdk b c = Ok s2 ->
  __error_check_order_layers pdk a c = Ok (lo, hi) /\
  exists s,
    via_stack pdk a c = Ok s /\
    ((lo = 0 /\ mid = 1 /\ Permutation s (s1 ++ s2)%list) \/
     (~ (lo = 0 /\ mid = 1) /\
      exists top rest,
        is_pad pdk (met mid) (via (mid - 1)) top /\
        Permutation s1 (top :: rest) /\ Permutation s (rest ++ s2)%list)).
Proof.
  intros Hab Hbc Hl Hh Hs1 Hs2.
  destruct (via_stack_join_ordered pdk a b c lo mid hi s1 s2 Hab Hbc Hl Hh Hs1 Hs2)
    as [Hac Hs].
  split; [exact Hac|]. eexists. split; [exact Hs|].
  pose proof (resolver_ordered _ _ _ _ _ Hab) as O1.
  assert (N1 : lo <> mid) by lia.
  destruct (via_stack_shape pdk a b lo mid s1 Hab N1 Hs1)
    as (base & body & top & -> & _ & _ & Htop).
  destruct (Z.max lo 1 <? mid) eqn:E.
  - right. split; [lia|]. destruct Htop as (pad & -> & Hpad).
    exists pad, (base ++ body)%list. split; [exact Hpad|].
    replace ((lo =? 0) && (mid =? 1)) with false
      by (destruct (lo =? 0) eqn:E0; [replace (mid =? 1) with false by lia|]; reflexivity).
    rewrite !app_assoc, removelast_last. split; [|reflexivity].
    symmetry. apply Permutation_cons_append.
  - left. assert (lo = 0 /\ mid = 1) as [-> ->] by lia.
    split; [reflexivity|]. split; [reflexivity|]. cbn [Z.eqb andb]. reflexivity.
Qed.

Lemma via_stack_composes_witness :
  __error_check_order_layers Sample.pdk "met1" "met3" = Ok (1, 3) /\
  exists s,
    via_stack Sample.pdk "met1" "met3" = Ok s /\
    ((1 = 0 /\ 2 = 1 /\ Permutation s (Sample.stack12 ++ Sample.stack23)%list) \/
     (~ (1 = 0 /\ 2 = 1) /\
      exists top rest,
        is_pad Sample.pdk (met 2) (via (2 - 1)) top /\
        Permutation Sample.stack12 (top :: rest) /\
        Permutation s (rest ++ Sample.stack23)%list)).
Proof.
  apply (via_stack_composes Sample.pdk "met1" "met2" "met3" 1 2 3
           Sample.stack12 Sample.stack23);
    [reflexivity | reflexivity | lia | lia | vm_compute; reflexivity
    | vm_compute; reflexivity].
Defined.

(** * The grid of an array *)

Lemma spacing_multiplier_range n i :
  0 <= i < n -> - (n / 2) <= spacing_multiplier i <= (n - 1) / 2.
Proof.
  intros Hi. pose proof (spacing_multiplier_spec i).
  pose proof (Z.div_mod n 2). pose proof (Z.mod_pos_bound n 2).
  pose proof (Z.div_mod (n - 1) 2). pose proof (Z.mod_pos_bound (n - 1) 2). lia.
Qed.

Lemma spacing_multiplier_onto n z :
  - (n / 2) <= z <= (n - 1) / 2 -> exists i, 0 <= i < n /\ spacing_multiplier i = z.
Proof.
  intros Hz.
  pose proof (Z.div_mod n 2). pose proof (Z.mod_pos_bound n 2).
  pose proof (Z.div_mod (n - 1) 2). pose proof (Z.mod_pos_bound (n - 1) 2).
  exists (if 0 <=? z then 2 * z else - 2 * z - 1).
  destruct (0 <=? z) eqn:Ez.
  - pose proof (spacing_multiplier_spec (2 * z)). lia.
  - pose proof (spacing_multiplier_spec (- 2 * z - 1)). lia.
Qed.

Section GridFacts.

Variable n : Z.
Variables full pitch : Q.
Hypothesis full_pos : (0 < full)%Q.
Hypothesis pitch_full : (pitch == full)%Q.

Lemma positions_evenly_spaced :
  evenly_spaced pitch (map (axis_offset n full) (PyStr.range 0 n)).
Proof.
  exists (inject_Z (- (n / 2)) * full + (if n mod 2 =? 0 then full / 2 else 0))%Q.
  rewrite length_map, RangeFacts.range_length.
  pose proof (Z.div_mod n 2). pose proof (Z.mod_pos_bound n 2).
  pose proof (Z.div_mod (n - 1) 2). pose proof (Z.mod_pos_bound (n - 1) 2).
  split.
  - intros k Hk.
    destruct (spacing_multiplier_onto n (- (n / 2) + Z.of_nat k)) as (i & Hi & Ei);
      [lia|].
    exists (axis_offset n full i). split; [apply in_positions; eauto|].
    rewrite axis_offset_eq, Ei, inject_Z_plus, pitch_full. ring.
  - intros p Hp. apply in_positions in Hp as (i & Hi & ->).
    pose proof (spacing_multiplier_range n i Hi) as R.
    exists (Z.to_nat (spacing_multiplier i + n / 2)). split; [lia|].
    rewrite Z2Nat.id by lia.
    rewrite axis_offset_eq, !inject_Z_plus, inject_Z_opp, pitch_full. ring.
Qed.

Lemma positions_pairwise_apart :
  pairwise_apart pitch (map (axis_offset n full) (PyStr.range 0 n)).
Proof.
  intros i j p q Hi Hj Hne.
  apply nth_error_positions in Hi as [Hi ->], Hj as [Hj ->].
  destruct (axis_offset_apart n _ full_pos (Z.of_nat i) (Z.of_nat j)) as [H | H];
    [lia | lia | lia | left | right]; lra.
Qed.

End GridFacts.

(** C6. Pitch: in the cell built by [via_array] (whose flattening is, up
    to the order of the rectangles, the returned geometry) every stack
    reference of a row sits at height 0 of the row and every row reference
    at abscissa 0 of the array, so that an instance is centred at (x of its
    stack reference, y of its row reference).  There is at least one row
    and at least one stack per row.  Along each axis the positions of the
    instances are those of a regular grid whose step is the full pitch
    d + margin, d being the bounding dimension of the reference stack:
    with n instances they are first, first + (d + margin), ..., first +
    (n - 1) * (d + margin); two instances of different indices are at least
    d + margin apart, and two adjacent ones exactly d + margin apart. *)
Theorem via_array_pitch (pdk : MappedPDK) (a b : string) (w h : Q) (lo hi : Z)
        (m : Q) (stack : Component) (cell : ArrayCell) :
  __error_check_order_layers pdk a b = Ok (lo, hi) ->
  lo <> hi ->
  compute_via_spacing pdk lo hi = Ok m ->
  via_stack pdk a b = Ok stack ->
  (0 < viadim_of stack + m)%Q ->
  via_array_cell pdk a b (w, h) = Ok cell ->
  let pitch := (viadim_of stack + m)%Q in
  let on_grid (positions : list Q) :=
    positions <> [] /\
    evenly_spaced pitch positions /\
    pairwise_apart pitch positions /\
    (forall p q, neighbours positions p q -> (q - p == pitch)%Q) in
  (exists g, via_array pdk a b (w, h) = Ok g /\ Permutation g (flatten_array cell)) /\
  on_grid (map ref_y (cell_rows cell)) /\
  Forall (fun row =>
            ref_x row = 0%Q /\
            Forall (fun s => ref_parent s = stack /\ ref_y s = 0%Q) (ref_parent row) /\
            on_grid (map ref_x (ref_parent row)))
         (cell_rows cell).
Proof.
  intros Hr Hne Hm Hs Hp Hc pitch on_grid.
  destruct (via_array_cell_inv pdk a b w h lo hi m stack cell Hr Hne Hm Hs Hp Hc)
    as (nx & ny & Hnx & Hny & Hrows).
  set (full := (m + viadim_of stack)%Q) in *.
  assert (Hfull : (0 < full)%Q) by (subst full; lra).
  assert (Hpf : (pitch == full)%Q) by (subst pitch full; ring).
  assert (Hax : forall n, 1 <= n ->
                          on_grid (map (axis_offset n full) (PyStr.range 0 n))).
  { intros n Hn. split; [|split; [|split]].
    - rewrite RangeFacts.range_cons by lia. discriminate.
    - now apply positions_evenly_spaced.
    - now apply positions_pairwise_apart.
    - intros p q Hnb. rewrite (neighbours_gap n full Hfull p q Hnb). now symmetry. }
  split.
  { exists (flatten_array cell). split; [unfold via_array; now rewrite Hc | reflexivity]. }
  rewrite Hrows. split.
  - unfold rows_of. rewrite map_map. cbn [ref_y]. now apply Hax.
  - unfold rows_of. apply Forall_map, Forall_forall. intros j _. cbn [ref_x ref_parent].
    split; [reflexivity|]. split.
    + unfold row_of. apply Forall_map, Forall_forall. intros i _. split; reflexivity.
    + unfold row_of. rewrite map_map. cbn [ref_x]. now apply Hax.
Qed.

Lemma via_array_pitch_witness :
  let pitch := (viadim_of Sample.stack12 + (3 # 10))%Q in
  let on_grid (positions : list Q) :=
    positions <> [] /\
    evenly_spaced pitch positions /\
    pairwise_apart pitch positions /\
    (forall p q, neighbours positions p q -> (q - p == pitch)%Q) in
  (exists g, via_array Sample.pdk "met1" "met2" (4, 2)%Q = Ok g /\
             Permutation g (flatten_array Sample.array12)) /\
  on_grid (map ref_y (cell_rows Sample.array12)) /\
  Forall (fun row =>
            ref_x row = 0%Q /\
            Forall (fun s => ref_parent s = Sample.stack12 /\ ref_y s = 0%Q)
                   (ref_parent row) /\
            on_grid (map ref_x (ref_parent row)))
         (cell_rows Sample.array12).
Proof.
  apply (via_array_pitch Sample.pdk "met1" "met2" 4 2 1 2 (3 # 10)
           Sample.stack12 Sample.array12);
    [reflexivity | lia | reflexivity | vm_compute; reflexivity | reflexivity
    | vm_compute; reflexivity].
Defined.

(** * The geometry of an array *)

Lemma flat_map_of_map {A B C : Type} (f : B -> list C) (g : A -> B) (l : list A) :
  flat_map f (map g l) = flat_map (fun x => f (g x)) l.
Proof.
  induction l as [|x l IH]; cbn [map flat_map]; [reflexivity | now rewrite IH].
Qed.

Lemma map_of_flat_map {A B C : Type} (h : B -> C) (f : A -> list B) (l : list A) :
  map h (flat_map f l) = flat_map (fun x => map h (f x)) l.
Proof.
  induction l as [|x l IH]; cbn [map flat_map]; [reflexivity|].
  now rewrite map_app, IH.
Qed.

(** Flattening the rows of a cell gives the grid of translated stacks, row
    after row. *)
Lemma flatten_rows_grid (stack : Component) (nx ny : Z) (full : Q)
      (rects : list Rect) :
  flatten_array (mkArrayCell (rows_of (row_of stack nx full) ny full) rects)
  = (grid_of stack nx ny full ++ rects)%list.
Proof.
  unfold flatten_array, grid_of. cbn [cell_rows cell_rects]. f_equal.
  unfold rows_of. rewrite flat_map_of_map. apply flat_map_ext. intros j.
  cbn [ref_parent ref_x ref_y]. unfold flatten_row, row_of.
  rewrite flat_map_of_map, map_of_flat_map. apply flat_map_ext. intros i.
  cbn [ref_parent ref_x ref_y]. unfold stack_at. rewrite map_map. reflexivity.
Qed.

Lemma grid_of_length (stack : Component) (nx ny : Z) (full : Q) :
  0 <= nx -> 0 <= ny ->
  Z.of_nat (length (grid_of stack nx ny full)) = nx * ny * Z.of_nat (length stack).
Proof.
  intros Hx Hy. unfold grid_of.
  rewrite (flat_map_constant_length (c := (Z.to_nat nx * length stack)%nat)).
  - rewrite RangeFacts.range_length. nia.
  - intros j _. rewrite (flat_map_constant_length (c := length stack)).
    + rewrite RangeFacts.range_length. f_equal. lia.
    + intros i _. unfold stack_at. apply length_map.
Qed.

(** X11. Up to the order of its rectangles, the geometry returned by
    [via_array] is one plate and nx * ny translated copies of the reference
    stack, nx and ny being the counts of line 126 as the machine computes
    them (pitch positive): the plate is centred at the origin, has exactly
    the requested size and lies on the layer of the upper metal; every
    other rectangle is a rectangle of the stack, with its layer and size,
    moved to the position (x of index i, y of index j) of one instance. *)
Theorem via_array_geometry (ops : FloatOps) (pdk : MappedPDK) (a b : string)
        (w h : Q) (lo hi : Z) (m : Q) (stack g : Component) :
  (forall x y, (0 <= x)%Q -> (0 < y)%Q -> (0 <= fdiv ops x y)%Q) ->
  __error_check_order_layers pdk a b = Ok (lo, hi) ->
  lo <> hi ->
  compute_via_spacing pdk lo hi = Ok m ->
  via_stack pdk a b = Ok stack ->
  (0 < fadd ops (viadim_of stack) m)%Q ->
  via_array_with ops pdk a b (w, h) = Ok g ->
  let d := viadim_of stack in
  let nx := Z.max 1 (Qfloor (fdiv ops w (fadd ops d m))) in
  let ny := Z.max 1 (Qfloor (fdiv ops h (fadd ops d m))) in
  exists lay,
    get_glayer pdk (met hi) = Ok lay /\
    Permutation g (mkRect lay 0 0 w h :: grid_of stack nx ny (m + d)) /\
    Z.of_nat (length g) = nx * ny * Z.of_nat (length stack) + 1.
Proof.
  intros Hsign Hr Hne Hm Hs Hp Hg d nx ny.
  unfold via_array_with in Hg. inv_bind Hg. injection Hg as <-.
  destruct (via_array_cell_with_structure ops pdk a b w h lo hi m stack v
              Hsign Hr Hne Hm Hs Hp E) as (lay & _ & _ & Hlay & ->).
  fold d nx ny. exists lay. split; [exact Hlay|].
  rewrite flatten_rows_grid. split.
  - symmetry. apply Permutation_cons_append.
  - rewrite length_app. cbn [length].
    pose proof (grid_of_length stack nx ny (m + d)). lia.
Qed.

Lemma via_array_geometry_witness :
  exists g lay,
    via_array_with exact_ops Sample.pdk "met1" "met2" (4, 2)%Q = Ok g /\
    get_glayer Sample.pdk (met 2) = Ok lay /\
    Permutation g (mkRect lay 0 0 4 2
                   :: grid_of Sample.stack12 5 2 ((3 # 10) + viadim_of Sample.stack12)) /\
    Z.of_nat (length g) = 5 * 2 * 3 + 1.
Proof.
  exists (flatten_array Sample.array12).
  assert (Hsign : forall x y : Q, (0 <= x)%Q -> (0 < y)%Q -> (0 <= fdiv exact_ops x y)%Q).
  { intros x y Hx Hy. cbn. apply Qle_shift_div_l; [exact Hy | lra]. }
  assert (Hg : via_array_with exact_ops Sample.pdk "met1" "met2" (4, 2)%Q
               = Ok (flatten_array Sample.array12)) by (vm_compute; reflexivity).
  destruct (via_array_geometry exact_ops Sample.pdk "met1" "met2" 4 2 1 2 (3 # 10)
              Sample.stack12 (flatten_array Sample.array12) Hsign)
    as (lay & Hlay & Hperm & Hlen);
    [reflexivity | lia | reflexivity | vm_compute; reflexivity | reflexivity
    | exact Hg |].
  exists lay. split; [exact Hg|]. split; [exact Hlay|]. split; [exact Hperm | exact Hlen].
Defined.

(** X16. An axis that is not negative and not longer than one pitch gets
    exactly one instance, whether the machine quotient rounds below or up
    to 1: [floor(q) or 1] is 1 for every quotient q between 0 and 1.  The
    facts used of the machine quotient are that it is monotone in its
    numerator, that x / x is 1, and that it is not negative for a
    non-negative numerator and a positive denominator. *)
Theorem num_vias_single_within_one_pitch (ops : FloatOps) (d m dim : Q) :
  (forall x y, (0 <= x)%Q -> (0 < y)%Q -> (0 <= fdiv ops x y)%Q) ->
  (forall x y z, (x <= y)%Q -> (0 < z)%Q -> (fdiv ops x z <= fdiv ops y z)%Q) ->
  (forall z, (0 < z)%Q -> (fdiv ops z z == 1)%Q) ->
  (0 < fadd ops d m)%Q ->
  (0 <= dim)%Q -> (dim <= fadd ops d m)%Q ->
  num_vias_with ops d m dim = Ok 1.
Proof.
  intros Hsign Hmono Hone Hp H0 H1.
  rewrite (num_vias_with_floor ops d m dim Hsign Hp H0). f_equal.
  assert (L : 0 <= Qfloor (fdiv ops dim (fadd ops d m))).
  { change 0 with (Qfloor 0). apply Qfloor_resp_le. now apply Hsign. }
  assert (U : Qfloor (fdiv ops dim (fadd ops d m)) <= 1).
  { change 1 with (Qfloor 1). apply Qfloor_resp_le.
    rewrite <- (Hone (fadd ops d m) Hp). now apply Hmono. }
  lia.
Qed.

Lemma num_vias_single_within_one_pitch_witness :
  num_vias_with exact_ops (5 # 10) (3 # 10) (6 # 10) = Ok 1.
Proof.
  apply (num_vias_single_within_one_pitch exact_ops (5 # 10) (3 # 10) (6 # 10)).
  - intros x y Hx Hy. cbn. apply Qle_shift_div_l; [exact Hy | lra].
  - intros x y z Hxy Hz. cbn. unfold Qdiv. apply Qmult_le_compat_r; [exact Hxy|].
    apply Qlt_le_weak, Qinv_lt_0_compat, Hz.
  - intros z Hz. cbn. field. lra.
  - reflexivity.
  - discriminate.
  - discriminate.
Defined.
